(** * fsspec: directory-listing cache and write transactions

    A shallow embedding of [fsspec/dircache.py] and [fsspec/transaction.py].
    Methods that mutate [self] and may raise become programs of a small
    state-and-exception monad; clock readings ([time.time()]) are passed to
    the methods that read the clock. *)

From Stdlib Require Import ZArith Lia.
From stdpp Require Import base option list strings gmap.

Local Open Scope Z_scope.

(** ** Programs over a mutable object that may raise *)

Inductive outcome (E A : Type) : Type :=
| Return (a : A)
| Raise (e : E).
Arguments Return {E A} a.
Arguments Raise {E A} e.

Definition prog (S E A : Type) : Type := S → outcome E A * S.

Definition prog_ret {S E A} (a : A) : prog S E A := λ s, (Return a, s).

Definition prog_bind {S E A B} (f : A → prog S E B) (m : prog S E A) : prog S E B :=
  λ s, match m s with
       | (Return a, s') => f a s'
       | (Raise e, s') => (Raise e, s')
       end.

Definition raise {S E A} (e : E) : prog S E A := λ s, (Raise e, s).

#[global] Instance prog_mret {S E} : MRet (prog S E) := @prog_ret S E.
#[global] Instance prog_mbind {S E} : MBind (prog S E) := @prog_bind S E.

(** [for x in l: body(x)] *)
Fixpoint for_each {S E A} (body : A → prog S E unit) (l : list A) : prog S E unit :=
  match l with
  | [] => mret ()
  | x :: l' => body x ;; for_each body l'
  end.

(** ** Python's insertion-ordered [dict] with string keys *)

Module PyDict.

Definition dict (V : Type) : Type := list (string * V).

Fixpoint get {V} (k : string) (d : dict V) : option V :=
  match d with
  | [] => None
  | (k', v) :: d' => if decide (k = k') then Some v else get k d'
  end.

(** [d[k] = v]: an existing key keeps its position, a new key goes last. *)
Fixpoint set {V} (k : string) (v : V) (d : dict V) : dict V :=
  match d with
  | [] => [(k, v)]
  | (k', v') :: d' =>
      if decide (k = k') then (k, v) :: d' else (k', v') :: set k v d'
  end.

(** the dictionary without key [k] ([del d[k]] and [d.pop(k, None)] on a present key) *)
Fixpoint remove {V} (k : string) (d : dict V) : dict V :=
  match d with
  | [] => []
  | (k', v') :: d' =>
      if decide (k = k') then remove k d' else (k', v') :: remove k d'
  end.

(** [list(d)] *)
Definition keys {V} (d : dict V) : list string := d.*1.

End PyDict.


(** ** dircache.py

    Clock readings and the expiry time are exact numbers (integers, in
    whatever unit): the code only subtracts and compares them. *)

Module DirCache.

Record Entry : Type := { name : string; size : Z; type : string }.

Definition Listing : Type := list Entry.

(** The three constructor options, fixed at construction. *)
Record Config : Type := {
  use_listings_cache : bool;
  listings_expiry_time : option Z;
  max_paths : option Z
}.

(** [if max_paths:] is false for [None] and for [0]. *)
Definition truthy (m : option Z) : bool :=
  match m with
  | Some n => negb (n =? 0)
  | None => false
  end.

(** Options that make sense: a duration and a bound are not negative. *)
Definition wf_config (c : Config) : bool :=
  match listings_expiry_time c with Some T => 0 <=? T | None => true end &&
  match max_paths c with Some n => 0 <=? n | None => true end.

(** [_q] is the [lru_cache] wrapper: its state is the list of keys it
    remembers, most recently used first. *)
Record State : Type := {
  _cache : PyDict.dict Listing;
  _times : gmap string Z;
  _q : list string
}.

Inductive exn : Type := KeyError.

Definition M (A : Type) : Type := prog State exn A.

(** The state made by [__init__]. *)
Definition init : State := {| _cache := []; _times := ∅; _q := [] |}.

Section WithConfig.

Variable c : Config.

(** [lru_cache(max_paths + 1)]: a negative [maxsize] is clamped to 0. *)
Definition maxsize : nat :=
  match max_paths c with
  | Some n => Z.to_nat (n + 1)
  | None => 0%nat
  end.

(** [self._q(key)]: a hit only refreshes the key's recency; a miss calls
    [lambda key: self._cache.pop(key, None)], then remembers the key and
    forgets the least recently used one when the wrapper is full. *)
Definition q (key : string) : M unit := λ s,
  if decide (key ∈ _q s)
  then (Return (),
        {| _cache := _cache s; _times := _times s;
           _q := key :: filter (λ k, k ≠ key) (_q s) |})
  else (Return (),
        {| _cache := PyDict.remove key (_cache s); _times := _times s;
           _q := take maxsize (key :: _q s) |}).

(** [self._times.get(item, 0)] *)
Definition times_get (item : string) : M Z := λ s,
  (Return (default 0 (_times s !! item)), s).

(** [del self._cache[item]] *)
Definition cache_del (item : string) : M unit := λ s,
  match PyDict.get item (_cache s) with
  | Some _ =>
      (Return (),
       {| _cache := PyDict.remove item (_cache s); _times := _times s; _q := _q s |})
  | None => (Raise KeyError, s)
  end.

(** [self._cache[item]] *)
Definition cache_lookup (item : string) : M Listing := λ s,
  match PyDict.get item (_cache s) with
  | Some l => (Return l, s)
  | None => (Raise KeyError, s)
  end.

(** [self._cache[key] = value] *)
Definition cache_store (key : string) (value : Listing) : M unit := λ s,
  (Return (),
   {| _cache := PyDict.set key value (_cache s); _times := _times s; _q := _q s |}).

(** [self._times[key] = now] *)
Definition times_store (key : string) (now : Z) : M unit := λ s,
  (Return (),
   {| _cache := _cache s; _times := <[key := now]> (_times s); _q := _q s |}).

Definition when (b : bool) (m : M unit) : M unit :=
  if b then m else mret ().

(** [__getitem__]; [now] is the value of [time.time()]. *)
Definition getitem (now : Z) (item : string) : M Listing :=
  match listings_expiry_time c with
  | Some T =>
      t ← times_get item;
      when (t - now <? - T) (cache_del item)
  | None => mret ()
  end ;;
  when (truthy (max_paths c)) (q item) ;;
  cache_lookup item.

(** [clear] *)
Definition clear : M unit := λ s,
  (Return (), {| _cache := []; _times := _times s; _q := _q s |}).

(** [__len__] *)
Definition len : M nat := λ s, (Return (length (_cache s)), s).

(** [__contains__]: a read whose [KeyError] is caught. *)
Definition contains (now : Z) (item : string) : M bool := λ s,
  match getitem now item s with
  | (Return _, s') => (Return true, s')
  | (Raise KeyError, s') => (Return false, s')
  end.

(** [__setitem__]; [now] is the value of [time.time()]. *)
Definition setitem (now : Z) (key : string) (value : Listing) : M unit :=
  if negb (use_listings_cache c) then mret ()
  else
    when (truthy (max_paths c)) (q key) ;;
    cache_store key value ;;
    match listings_expiry_time c with
    | Some _ => times_store key now
    | None => mret ()
    end.

(** [__delitem__] *)
Definition delitem (key : string) : M unit := cache_del key.

(** [__iter__] copies the keys and returns a generator over the copy. The
    generator object is the list of copied keys it has not examined yet. *)
Definition generator : Type := list string.

Definition iter : M generator := λ s, (Return (PyDict.keys (_cache s)), s).

(** One [next()] on the generator [(k for k in entries if k in self)]:
    the filter [k in self] runs now, on the current state, for each key
    examined; [None] is [StopIteration]. The tests made within one
    [next()] see the same clock reading [now]. *)
Fixpoint next (now : Z) (g : generator) : M (option string * generator) :=
  match g with
  | [] => mret (None, [])
  | k :: g' =>
      b ← contains now k;
      if (b : bool) then mret (Some k, g') else next now g'
  end.

(** [list(g)] with the clock at [now] throughout. *)
Fixpoint drain (now : Z) (g : generator) : M (list string) :=
  match g with
  | [] => mret []
  | k :: g' =>
      b ← contains now k;
      ks ← drain now g';
      mret (if (b : bool) then k :: ks else ks)
  end.

(** [list(self)] *)
Definition iterate (now : Z) : M (list string) :=
  g ← iter; drain now g.

(** What a caller can do to the cache between two steps of interest. *)
Inductive op : Type :=
| OGet (now : Z) (k : string)
| OSet (now : Z) (k : string) (v : Listing)
| ODel (k : string)
| OContains (now : Z) (k : string)
| OClear
| OLen.

Definition exec (o : op) (s : State) : State :=
  match o with
  | OGet now k => (getitem now k s).2
  | OSet now k v => (setitem now k v s).2
  | ODel k => (delitem k s).2
  | OContains now k => (contains now k s).2
  | OClear => (clear s).2
  | OLen => (len s).2
  end.

(** [o] does not write path [p]. *)
Definition writes (p : string) (o : op) : bool :=
  match o with
  | OSet _ k _ => bool_decide (k = p)
  | _ => false
  end.

Definition exec_all (os : list op) (s : State) : State := foldl (λ s o, exec o s) s os.

(** A consumer of the generator: before each [next()] it may run further
    operations on the cache; it stops at [StopIteration] or when its
    schedule ends. The result is the list of keys it was handed. *)
Fixpoint consume (sched : list (list op * Z)) (g : generator) (s : State)
  : list string * State :=
  match sched with
  | [] => ([], s)
  | (os, now) :: sched' =>
      match next now g (exec_all os s) with
      | (Return (Some k, g'), s') =>
          let (ks, s'') := consume sched' g' s' in (k :: ks, s'')
      | (_, s') => ([], s')
      end
  end.

End WithConfig.

End DirCache.


(** ** transaction.py *)

Module Transaction.

(** An [AbstractBufferedFile] is known here by its identity only; what its
    [commit()] and [discard()] do is outside this file, except that they
    return or raise. *)
Definition handle : Type := nat.

Inductive action : Type := Commit | Discard.

#[global] Instance action_eq_dec : EqDecision action.
Proof. solve_decision. Defined.

Definition event : Type := action * handle.

Inductive exn : Type :=
| HandleError (a : action) (h : handle)   (* raised by [h.commit()] or [h.discard()] *)
| BlockError (tag : nat).                 (* raised by the body of a [with] block *)

(** The [Transaction] object, the two attributes of its filesystem that
    it writes, and the calls made so far on the registered files. *)
Record World : Type := {
  files : list handle;
  _intrans : bool;
  _transaction : option nat;
  calls : list event
}.

Definition M (A : Type) : Type := prog World exn A.

Definition set_files (l : list handle) : M unit := λ w,
  (Return (), {| files := l; _intrans := _intrans w;
                 _transaction := _transaction w; calls := calls w |}).

Definition set_intrans (b : bool) : M unit := λ w,
  (Return (), {| files := files w; _intrans := b;
                 _transaction := _transaction w; calls := calls w |}).

Definition set_transaction (t : option nat) : M unit := λ w,
  (Return (), {| files := files w; _intrans := _intrans w;
                 _transaction := t; calls := calls w |}).

Definition get_files : M (list handle) := λ w, (Return (files w), w).

Section WithHandles.

(** Which calls on which files raise. *)
Variable fails : action → handle → bool.

(** [f.commit()] or [f.discard()]: the call is made, then returns or raises. *)
Definition call (a : action) (f : handle) : M unit := λ w,
  let w' := {| files := files w; _intrans := _intrans w;
               _transaction := _transaction w; calls := calls w ++ [(a, f)] |} in
  if fails a f then (Raise (HandleError a f), w') else (Return (), w').

(** [Transaction.start] *)
Definition start : M unit :=
  set_files [] ;; set_intrans true.

(** [Transaction.complete] *)
Definition complete (commit : bool) : M unit :=
  fs ← get_files;
  for_each (λ f, if commit then call Commit f else call Discard f) fs ;;
  set_files [] ;;
  set_intrans false.

(** [Transaction.__enter__] *)
Definition __enter__ : M unit := start.

(** [Transaction.__exit__]; [exc_type] is [None] when the block ended
    without an exception. *)
Definition __exit__ (exc_type : option exn) : M unit :=
  complete (bool_decide (exc_type = None)) ;;
  set_intrans false ;;
  set_transaction None.

(** Modelled from the spec: [register(handle)] appends the handle to the
    transaction's list; the file-opening code that does so is not part of
    transaction.py. *)
Definition register (f : handle) : M unit := λ w,
  (Return (), {| files := files w ++ [f]; _intrans := _intrans w;
                 _transaction := _transaction w; calls := calls w |}).

(** [with transaction: body]: [__enter__], the body, then [__exit__] with
    the body's exception if any. [__exit__] returns [None], so the body's
    exception propagates after it; an exception of [__exit__] itself
    takes its place. *)
Definition with_ (body : M unit) : M unit := λ w,
  match __enter__ w with
  | (Raise e, w0) => (Raise e, w0)
  | (Return _, w0) =>
      match body w0 with
      | (Return _, w1) => __exit__ None w1
      | (Raise e, w1) =>
          match __exit__ (Some e) w1 with
          | (Return _, w2) => (Raise e, w2)
          | (Raise e', w2) => (Raise e', w2)
          end
      end
  end.

(** A block that opens the files [hs], registering each, and then ends
    normally or raises. *)
Definition block (hs : list handle) (exc : option exn) : M unit :=
  for_each register hs ;;
  match exc with
  | Some e => raise e
  | None => mret ()
  end.

End WithHandles.

End Transaction.


(** ** transaction.py: the Dask variant *)

Module DaskTransaction.
Import Transaction.

Inductive exn : Type :=
| HandleError (a : action) (h : handle)   (* raised by a remote file's [commit()] or [discard()] *)
| AttributeError                          (* [self.files] has no such method *)
| UnknownFuture.                          (* a future that was never handed out *)

(** The methods of [FileActor]. *)
Inductive method : Type :=
| MCommit
| MDiscard
| MAppend (f : handle).

(** The worker that hosts the [FileActor]: the actor's [files], the calls
    made so far on those files, the actor calls received but not yet run
    (each with the future that stands for its result), the results of the
    calls already run, the next free future, and how many queued calls the
    worker gets through, concurrently, after each new submission. *)
Record Worker : Type := {
  actor_files : list handle;
  remote_calls : list event;
  inbox : list (nat * method);
  results : gmap nat (outcome exn unit);
  next_future : nat;
  pace : list nat
}.

(** [self.files] of a [DaskTransaction]: the actor handle made by
    [__init__], or the plain list that the inherited [start()] puts there. *)
Inductive collector : Type :=
| Actor
| LocalList (l : list handle).

Record World : Type := {
  files : collector;
  _intrans : bool;
  worker : Worker
}.

Definition M (A : Type) : Type := prog World exn A.

Section WithHandles.

Variable fails : action → handle → bool.

(** *** FileActor, run on the worker *)

Definition A (X : Type) : Type := prog Worker exn X.

Definition remote_call (a : action) (f : handle) : A unit := λ k,
  let k' := {| actor_files := actor_files k;
               remote_calls := remote_calls k ++ [(a, f)];
               inbox := inbox k; results := results k;
               next_future := next_future k; pace := pace k |} in
  if fails a f then (Raise (HandleError a f), k') else (Return (), k').

Definition set_actor_files (l : list handle) : A unit := λ k,
  (Return (),
   {| actor_files := l; remote_calls := remote_calls k; inbox := inbox k;
      results := results k; next_future := next_future k; pace := pace k |}).

Definition get_actor_files : A (list handle) := λ k, (Return (actor_files k), k).

(** [FileActor.commit] *)
Definition actor_commit : A unit :=
  fs ← get_actor_files;
  for_each (remote_call Commit) fs ;;
  set_actor_files [].

(** [FileActor.discard] *)
Definition actor_discard : A unit :=
  fs ← get_actor_files;
  for_each (remote_call Discard) fs ;;
  set_actor_files [].

(** [FileActor.append] *)
Definition actor_append (f : handle) : A unit :=
  fs ← get_actor_files;
  set_actor_files (fs ++ [f]).

Definition run_method (m : method) : A unit :=
  match m with
  | MCommit => actor_commit
  | MDiscard => actor_discard
  | MAppend f => actor_append f
  end.

(** *** The actor framework

    Modelled from the spec: "invoke a method on that handle and obtain a
    result, possibly asynchronously", through a future "with a blocking
    [.result()] accessor". The framework itself ([distributed]) is not
    part of this repository. A call on the actor handle only queues the
    call and returns its future; the worker runs queued calls in order
    and at its own pace; [.result()] returns, or re-raises, the outcome
    of the call once the worker has run it. *)

(** The worker runs the oldest queued call and records its outcome. *)
Definition worker_step (k : Worker) : Worker :=
  match inbox k with
  | [] => k
  | (i, m) :: rest =>
      let '(r, k1) :=
        run_method m
          {| actor_files := actor_files k; remote_calls := remote_calls k;
             inbox := rest; results := results k;
             next_future := next_future k; pace := pace k |} in
      {| actor_files := actor_files k1; remote_calls := remote_calls k1;
         inbox := inbox k1; results := <[i := r]> (results k1);
         next_future := next_future k1; pace := pace k1 |}
  end.

Fixpoint worker_run (n : nat) (k : Worker) : Worker :=
  match n with
  | O => k
  | S n' => worker_run n' (worker_step k)
  end.

Definition pending (i : nat) (k : Worker) : bool :=
  bool_decide (i ∈ (inbox k).*1).

(** The worker keeps going for as long as call [i] is queued. *)
Fixpoint run_until (i : nat) (fuel : nat) (k : Worker) : Worker :=
  match fuel with
  | O => k
  | S fuel' => if pending i k then run_until i fuel' (worker_step k) else k
  end.

Definition with_worker (k : Worker) (w : World) : World :=
  {| files := files w; _intrans := _intrans w; worker := k |}.

(** [actor.method()]: queue the call, hand out its future; meanwhile the
    worker gets through some of its queue. *)
Definition invoke (m : method) : M nat := λ w,
  let k := worker w in
  let i := next_future k in
  let k' := {| actor_files := actor_files k; remote_calls := remote_calls k;
               inbox := inbox k ++ [(i, m)]; results := results k;
               next_future := S i; pace := tail (pace k) |} in
  (Return i, with_worker (worker_run (hd 0%nat (pace k)) k') w).

(** [future.result()]: wait until the call has been run, then return or
    re-raise its outcome. *)
Definition result (i : nat) : M unit := λ w,
  let k := run_until i (length (inbox (worker w))) (worker w) in
  match results k !! i with
  | Some (Return _) => (Return (), with_worker k w)
  | Some (Raise e) => (Raise e, with_worker k w)
  | None => (Raise UnknownFuture, with_worker k w)
  end.

(** *** DaskTransaction *)

Definition set_intrans (b : bool) : M unit := λ w,
  (Return (), {| files := files w; _intrans := b; worker := worker w |}).

Definition set_files (c : collector) : M unit := λ w,
  (Return (), {| files := c; _intrans := _intrans w; worker := worker w |}).

(** [self.files.commit()] and [self.files.discard()]: an actor call when
    [self.files] is the actor handle; a [list] has neither method. *)
Definition files_call (m : method) : M nat := λ w,
  match files w with
  | Actor => invoke m w
  | LocalList _ => (Raise AttributeError, w)
  end.

(** [DaskTransaction.complete] *)
Definition complete (commit : bool) : M unit :=
  (if commit
   then fut ← files_call MCommit; result fut
   else fut ← files_call MDiscard; result fut) ;;
  set_intrans false.

(** [Transaction.start], inherited *)
Definition start : M unit :=
  set_files (LocalList []) ;; set_intrans true.

End WithHandles.

End DaskTransaction.


(** ** Properties of the dictionary *)

Module PyDictFacts.
Import PyDict.

Section Lemmas.
Context {V : Type}.
Implicit Types (k : string) (v : V) (d : dict V).

Lemma get_set_eq k v d : get k (set k v d) = Some v.
Proof.
  induction d as [|[k' v'] d IH]; simpl.
  - by rewrite decide_True.
  - destruct (decide (k = k')) as [->|Hne]; simpl.
    + by rewrite decide_True.
    + by rewrite decide_False.
Qed.

Lemma get_set_ne k k' v d : k ≠ k' → get k' (set k v d) = get k' d.
Proof.
  intros Hne. induction d as [|[k0 v0] d IH]; simpl.
  - rewrite decide_False; [done | congruence].
  - destruct (decide (k = k0)) as [->|Hk]; simpl.
    + rewrite !decide_False; [done | congruence | congruence].
    + by rewrite IH.
Qed.

Lemma get_remove_eq k d : get k (remove k d) = None.
Proof.
  induction d as [|[k' v'] d IH]; simpl; [done|].
  destruct (decide (k = k')); simpl; [done|]. by rewrite decide_False.
Qed.

Lemma get_remove_ne k k' d : k ≠ k' → get k' (remove k d) = get k' d.
Proof.
  intros Hne. induction d as [|[k0 v0] d IH]; simpl; [done|].
  destruct (decide (k = k0)) as [->|Hk]; simpl.
  - rewrite decide_False; [done | congruence].
  - by rewrite IH.
Qed.

Lemma remove_absent k d : get k d = None → remove k d = d.
Proof.
  induction d as [|[k' v'] d IH]; simpl; [done|].
  destruct (decide (k = k')); [done|]. intros H. by rewrite IH.
Qed.

Lemma set_absent k v d : get k d = None → set k v d = d ++ [(k, v)].
Proof.
  induction d as [|[k' v'] d IH]; simpl; [done|].
  destruct (decide (k = k')); [done|]. intros H. by rewrite IH.
Qed.

End Lemmas.

End PyDictFacts.


(** ** Properties of the directory cache *)

Module DirCacheFacts.
Import DirCache.

Ltac run :=
  unfold getitem, setitem, contains, delitem, when, times_get, cache_del,
    cache_lookup, cache_store, times_store, q, clear, len;
  unfold mbind, mret, prog_mbind, prog_mret, prog_bind, prog_ret; simpl.

(** Sample options, listings and runs. *)
Definition listing_of (n : Z) : Listing :=
  [ {| name := "f"; size := n; type := "file" |} ].

Definition plain : Config :=
  {| use_listings_cache := true; listings_expiry_time := None; max_paths := None |}.

Definition expiring (T : Z) : Config :=
  {| use_listings_cache := true; listings_expiry_time := Some T; max_paths := None |}.

Definition bounded (n : Z) : Config :=
  {| use_listings_cache := true; listings_expiry_time := None; max_paths := Some n |}.

Definition expiring_bounded (T n : Z) : Config :=
  {| use_listings_cache := true; listings_expiry_time := Some T; max_paths := Some n |}.

(** Four writes under a bound of 2: the first path has left the tracker
    but its listing is still in the store. *)
Definition four_writes : State :=
  exec_all (bounded 2)
    [OSet 0 "p1" (listing_of 1); OSet 0 "p2" (listing_of 2);
     OSet 0 "p3" (listing_of 3); OSet 0 "p4" (listing_of 4)] init.

Section Facts.
Variable c : Config.

(** The expiry test of [__getitem__]: it fires when expiry is on and the
    recorded write time of the path (0 if none) is more than the expiry
    time before [now]. *)
Definition expired (now : Z) (item : string) (s : State) : bool :=
  match listings_expiry_time c with
  | Some T => default 0 (_times s !! item) - now <? - T
  | None => false
  end.

(** The state after the conditional tracker call. *)
Definition touched (item : string) (s : State) : State :=
  if truthy (max_paths c) then (q c item s).2 else s.

Definition without (item : string) (s : State) : State :=
  {| _cache := PyDict.remove item (_cache s); _times := _times s; _q := _q s |}.

(** [o] is a write of a path other than [p]. *)
Definition write_other (p : string) (o : op) : bool :=
  match o with
  | OSet _ k _ => negb (bool_decide (k = p))
  | _ => false
  end.

(** Following the spec's words: a path is visible when [contains] is true
    of it, and the visible paths of a state are the keys of the store that
    are visible in that state. *)
Definition is_visible (now : Z) (s : State) (k : string) : bool :=
  match (contains c now k s).1 with
  | Return b => b
  | Raise _ => false
  end.

Definition visible_paths (now : Z) (s : State) : list string :=
  filter (λ k, is_visible now s k = true) (PyDict.keys (_cache s)).

(** [s'] is [s] less some paths whose expiry test fires. *)
Definition pruned (now : Z) (s s' : State) : Prop :=
  _times s' = _times s ∧
  ∀ k, expired now k s = false →
       PyDict.get k (_cache s') = PyDict.get k (_cache s).

Lemma maxsize_pos n :
  wf_config c = true → max_paths c = Some n → ∃ m, maxsize c = S m.
Proof.
  unfold wf_config, maxsize. intros Hwf Hn. rewrite Hn in *.
  apply andb_true_iff in Hwf as [_ Hle]. apply Z.leb_le in Hle.
  exists (Z.to_nat n). lia.
Qed.

Lemma truthy_Some m : truthy m = true → ∃ n, m = Some n.
Proof. destruct m; [eauto | done]. Qed.

(** The tracker call always returns, never touches [_times], leaves the
    key at the front of the tracker, and removes at most that key from
    the store. *)
Lemma q_spec key s :
  wf_config c = true → truthy (max_paths c) = true →
  ∃ s', q c key s = (Return (), s') ∧ _times s' = _times s ∧
        (∃ r, _q s' = key :: r) ∧
        (key ∈ _q s → _cache s' = _cache s) ∧
        (key ∉ _q s → _cache s' = PyDict.remove key (_cache s)).
Proof.
  intros Hwf Ht. destruct (truthy_Some _ Ht) as [n Hn].
  destruct (maxsize_pos n Hwf Hn) as [m Hm].
  unfold q. destruct (decide (key ∈ _q s)) as [Hin|Hout];
    eexists; (split; [reflexivity|]); simpl; rewrite ?Hm; simpl;
    repeat split; eauto; done.
Qed.

Lemma getitem_times now k s : _times (getitem c now k s).2 = _times s.
Proof.
  run. destruct (listings_expiry_time c) as [T|]; simpl.
  - destruct (_ <? _); simpl.
    + destruct (PyDict.get k (_cache s)); simpl; [|done].
      destruct (truthy (max_paths c)); simpl.
      * destruct (decide _); simpl; destruct (PyDict.get k _); done.
      * destruct (PyDict.get k _); done.
    + destruct (truthy (max_paths c)); simpl.
      * destruct (decide _); simpl; destruct (PyDict.get k _); done.
      * destruct (PyDict.get k _); done.
  - destruct (truthy (max_paths c)); simpl.
    + destruct (decide _); simpl; destruct (PyDict.get k _); done.
    + destruct (PyDict.get k _); done.
Qed.

Lemma contains_times now k s : _times (contains c now k s).2 = _times s.
Proof.
  rewrite <- (getitem_times now k s). unfold contains.
  destruct (getitem c now k s) as [[?|[]] ?]; done.
Qed.

Lemma setitem_times_ne now k v p s :
  k ≠ p → _times (setitem c now k v s).2 !! p = _times s !! p.
Proof.
  intros Hne. run. destruct (use_listings_cache c); simpl; [|done].
  destruct (truthy (max_paths c)); simpl.
  - destruct (decide _); simpl; destruct (listings_expiry_time c); simpl;
      by rewrite ?lookup_insert_ne.
  - destruct (listings_expiry_time c); simpl; by rewrite ?lookup_insert_ne.
Qed.

Lemma exec_times o p s :
  writes p o = false → _times (exec c o s) !! p = _times s !! p.
Proof.
  destruct o as [now k|now k v|k|now k| |]; simpl; intros Hw.
  - by rewrite getitem_times.
  - apply setitem_times_ne. by apply bool_decide_eq_false in Hw.
  - unfold delitem, cache_del. by destruct (PyDict.get k _).
  - by rewrite contains_times.
  - done.
  - done.
Qed.

Lemma exec_all_times os p s :
  forallb (λ o, negb (writes p o)) os = true →
  _times (exec_all c os s) !! p = _times s !! p.
Proof.
  revert s. induction os as [|o os IH]; intros s Hos; simpl in *; [done|].
  apply andb_true_iff in Hos as [Ho Hos]. apply negb_true_iff in Ho.
  unfold exec_all in *. simpl. rewrite IH; [|done]. by apply exec_times.
Qed.

Lemma getitem_unfold now item s :
  getitem c now item s =
    if expired now item s then
      match PyDict.get item (_cache s) with
      | Some _ => cache_lookup item (touched item (without item s))
      | None => (Raise KeyError, s)
      end
    else cache_lookup item (touched item s).
Proof.
  unfold expired, touched, without, getitem, when, times_get, cache_del.
  unfold mbind, mret, prog_mbind, prog_mret, prog_bind, prog_ret. simpl.
  destruct (listings_expiry_time c) as [T|]; simpl.
  - destruct (_ <? _); simpl.
    + destruct (PyDict.get item (_cache s)); simpl; [|done].
      destruct (truthy (max_paths c)); simpl; [|done].
      unfold q; simpl. by destruct (decide _).
    + destruct (truthy (max_paths c)); simpl; [|done].
      unfold q; simpl. by destruct (decide _).
  - destruct (truthy (max_paths c)); simpl; [|done].
    unfold q; simpl. by destruct (decide _).
Qed.

Lemma touched_cache_absent item s :
  PyDict.get item (_cache s) = None → _cache (touched item s) = _cache s.
Proof.
  intros Hnone. unfold touched, q. destruct (truthy _); [|done].
  destruct (decide _); simpl; [done|]. by apply PyDictFacts.remove_absent.
Qed.

Lemma touched_times item s : _times (touched item s) = _times s.
Proof. unfold touched, q. destruct (truthy _); [|done]. by destruct (decide _). Qed.

(** A read of a path that is not in the store raises [KeyError] and leaves
    the store and the write times as they are. *)
Lemma getitem_absent now item s :
  PyDict.get item (_cache s) = None →
  ∃ s', getitem c now item s = (Raise KeyError, s') ∧
        _cache s' = _cache s ∧ _times s' = _times s.
Proof.
  intros Hnone. rewrite getitem_unfold, Hnone.
  destruct (expired now item s); [by eexists|].
  unfold cache_lookup. rewrite touched_cache_absent, Hnone by done.
  eexists; split; [done|]. by rewrite touched_cache_absent, touched_times.
Qed.

(** A read of a stored path whose expiry test fires removes it and raises. *)
Lemma getitem_expired now item s :
  expired now item s = true →
  ∃ s', getitem c now item s = (Raise KeyError, s') ∧
        PyDict.get item (_cache s') = None ∧ _times s' = _times s.
Proof.
  intros Hexp. destruct (PyDict.get item (_cache s)) as [l|] eqn:Hget.
  - rewrite getitem_unfold, Hexp, Hget. unfold cache_lookup.
    rewrite touched_cache_absent by apply PyDictFacts.get_remove_eq.
    simpl. rewrite PyDictFacts.get_remove_eq.
    eexists; split; [done|]. rewrite touched_cache_absent, touched_times
      by apply PyDictFacts.get_remove_eq.
    split; [apply PyDictFacts.get_remove_eq | done].
  - destruct (getitem_absent now item s Hget) as (s' & -> & Hc & Ht).
    exists s'. by rewrite Hc.
Qed.

(** A read of a stored path that is not expired and, with a capacity
    bound, is still in the tracker returns its listing. *)
Lemma getitem_hit now item l s :
  PyDict.get item (_cache s) = Some l →
  expired now item s = false →
  (truthy (max_paths c) = true → item ∈ _q s) →
  ∃ s', getitem c now item s = (Return l, s') ∧
        _cache s' = _cache s ∧ _times s' = _times s.
Proof.
  intros Hget Hexp Hq. rewrite getitem_unfold, Hexp.
  assert (_cache (touched item s) = _cache s) as Hc.
  { unfold touched, q. destruct (truthy _); [|done].
    by rewrite decide_True by auto. }
  unfold cache_lookup. rewrite Hc, Hget. eexists; split; [done|].
  by rewrite Hc, touched_times.
Qed.

Lemma when_q key s :
  when (truthy (max_paths c)) (q c key) s = (Return (), touched key s).
Proof.
  unfold when, touched, q. destruct (truthy _); [|done]. by destruct (decide _).
Qed.

Lemma touched_front key s :
  wf_config c = true → truthy (max_paths c) = true →
  ∃ r, _q (touched key s) = key :: r.
Proof.
  intros Hwf Ht. destruct (q_spec key s Hwf Ht) as (s1 & Hq & _ & Hfront & _).
  unfold touched. by rewrite Ht, Hq.
Qed.

Lemma setitem_unfold now key value s :
  use_listings_cache c = true →
  setitem c now key value s =
    (Return (),
     {| _cache := PyDict.set key value (_cache (touched key s));
        _times := match listings_expiry_time c with
                  | Some _ => <[key := now]> (_times s)
                  | None => _times s
                  end;
        _q := _q (touched key s) |}).
Proof.
  intros Hu. unfold setitem. rewrite Hu. simpl.
  unfold mbind, mret, prog_mbind, prog_mret, prog_bind, prog_ret.
  rewrite when_q. unfold cache_store, times_store.
  destruct (listings_expiry_time c); simpl; by rewrite touched_times.
Qed.

Lemma touched_cache_miss key s :
  truthy (max_paths c) = true → key ∉ _q s →
  _cache (touched key s) = PyDict.remove key (_cache s).
Proof.
  intros Ht Hout. unfold touched, q. rewrite Ht. by rewrite decide_False.
Qed.

(** A write with caching on returns, stores the listing, stamps the path
    when expiry is on, and puts the path at the front of the tracker when
    there is a capacity bound. *)
Lemma setitem_spec now key value s :
  use_listings_cache c = true → wf_config c = true →
  ∃ s', setitem c now key value s = (Return (), s') ∧
        PyDict.get key (_cache s') = Some value ∧
        (is_Some (listings_expiry_time c) → _times s' !! key = Some now) ∧
        (truthy (max_paths c) = true → ∃ r, _q s' = key :: r).
Proof.
  intros Hu Hwf. unfold setitem. rewrite Hu. simpl.
  unfold mbind, mret, prog_mbind, prog_mret, prog_bind, prog_ret.
  rewrite when_q. unfold cache_store, times_store.
  destruct (listings_expiry_time c) as [T|]; simpl;
    eexists; (split; [reflexivity|]); simpl; rewrite PyDictFacts.get_set_eq.
  - split_and!; [done | intros _; apply lookup_insert_eq | by apply touched_front].
  - split_and!; [done | by intros [? ?] | by apply touched_front].
Qed.

Lemma elem_of_take_le (x : string) (k k' : nat) (l : list string) :
  (k ≤ k')%nat → x ∈ take k l → x ∈ take k' l.
Proof.
  rewrite !elem_of_take. intros Hle (i & Hi & Hlt). exists i. split; [done | lia].
Qed.

Lemma elem_of_take_filter (P : string → Prop) `{∀ x, Decision (P x)}
    (x : string) (k : nat) (l : list string) :
  P x → x ∈ take k l → x ∈ take k (filter P l).
Proof.
  intros HP. revert k. induction l as [|y l IH]; intros k Hin.
  - rewrite take_nil in Hin. by apply elem_of_nil in Hin.
  - destruct k as [|k]; [by apply elem_of_nil in Hin|].
    simpl in Hin. apply elem_of_cons in Hin as [->|Hin].
    + rewrite filter_cons_True by done. apply list_elem_of_here.
    + destruct (decide (P y)).
      * rewrite filter_cons_True by done. simpl. apply list_elem_of_further. auto.
      * rewrite filter_cons_False by done. apply IH.
        eapply elem_of_take_le; [|done]. lia.
Qed.

(** A write of another path pushes [p1] down the tracker by at most one
    place and leaves its listing alone, as long as the tracker has room. *)
Lemma write_other_keeps n p1 L1 k t key v s :
  use_listings_cache c = true →
  max_paths c = Some n → 0 < n →
  key ≠ p1 → (k ≤ Z.to_nat n)%nat →
  p1 ∈ take k (_q s) → PyDict.get p1 (_cache s) = Some L1 →
  p1 ∈ take (S k) (_q (exec c (OSet t key v) s)) ∧
  PyDict.get p1 (_cache (exec c (OSet t key v) s)) = Some L1.
Proof.
  intros Hu Hn Hpos Hne Hk Hin Hget. simpl.
  rewrite setitem_unfold by done. simpl.
  rewrite PyDictFacts.get_set_ne by done.
  unfold touched, q. rewrite Hn. simpl.
  replace (n =? 0) with false by (symmetry; apply Z.eqb_neq; lia). simpl.
  destruct (decide (key ∈ _q s)); simpl.
  - split; [|done]. apply list_elem_of_further.
    apply elem_of_take_filter; [congruence | done].
  - rewrite PyDictFacts.get_remove_ne by done. split; [|done].
    unfold maxsize. rewrite Hn, take_take.
    replace (S k `min` Z.to_nat (n + 1))%nat with (S k) by lia.
    simpl. by apply list_elem_of_further.
Qed.

Lemma writes_other_keep n p1 L1 os :
  use_listings_cache c = true →
  max_paths c = Some n → 0 < n →
  forallb (write_other p1) os = true →
  ∀ k s, (k + length os ≤ S (Z.to_nat n))%nat →
    p1 ∈ take k (_q s) → PyDict.get p1 (_cache s) = Some L1 →
    p1 ∈ _q (exec_all c os s) ∧
    PyDict.get p1 (_cache (exec_all c os s)) = Some L1.
Proof.
  intros Hu Hn Hpos. induction os as [|o os IH]; intros Hos k s Hk Hin Hget.
  - split; [|done]. eapply subseteq_take, Hin.
  - simpl in Hos. apply andb_true_iff in Hos as [Ho Hos].
    destruct o as [| t key v | | | |]; try done. simpl in Ho.
    apply negb_true_iff, bool_decide_eq_false in Ho.
    simpl in Hk.
    destruct (write_other_keeps n p1 L1 k t key v s) as [Hin' Hget'];
      [done.. | lia | done | done |].
    change (exec_all c (OSet t key v :: os) s)
      with (exec_all c os (exec c (OSet t key v) s)).
    apply (IH Hos (S k)); [lia | done..].
Qed.

(** The membership test never raises: it returns whether the read
    returned. *)
Lemma contains_total now k s :
  ∃ b s', contains c now k s = (Return b, s').
Proof. unfold contains. destruct (getitem c now k s) as [[?|[]] ?]; eauto. Qed.

(** A step of the generator hands out a key of its pending list and keeps
    what came after it. *)
Lemma next_suffix now g s k g' s' :
  next c now g s = (Return (Some k, g'), s') → ∃ pre, g = pre ++ k :: g'.
Proof.
  revert s. induction g as [|k0 g IH]; intros s; simpl.
  - unfold mret, prog_mret, prog_ret. congruence.
  - unfold mbind, prog_mbind, prog_bind.
    destruct (contains_total now k0 s) as (b & s1 & ->). destruct b.
    + unfold mret, prog_mret, prog_ret. intros [= <- <- <-]. by exists [].
    + intros Hnext. destruct (IH _ Hnext) as [pre ->]. by exists (k0 :: pre).
Qed.

Lemma consume_sublist sched g s : sublist (consume c sched g s).1 g.
Proof.
  revert g s. induction sched as [|[os now] sched IH]; intros g s; simpl.
  - apply sublist_nil_l.
  - destruct (next c now g (exec_all c os s)) as [[[[k|] g']|e] s'] eqn:Hnext;
      simpl; try apply sublist_nil_l.
    destruct (next_suffix _ _ _ _ _ _ Hnext) as [pre ->].
    specialize (IH g' s'). destruct (consume c sched g' s') as [ks s''].
    simpl in *. apply sublist_inserts_l. by apply sublist_skip.
Qed.

(** Without a capacity bound the membership test is true of the stored
    paths whose expiry test does not fire, and removes the path when the
    test fires. *)
Lemma contains_unbounded now k s :
  truthy (max_paths c) = false →
  contains c now k s =
    (Return (negb (expired now k s) && bool_decide (is_Some (PyDict.get k (_cache s)))),
     if expired now k s then without k s else s).
Proof.
  intros Ht. unfold contains. rewrite getitem_unfold. unfold touched.
  rewrite Ht. unfold cache_lookup. simpl.
  destruct (expired now k s); simpl.
  - destruct (PyDict.get k (_cache s)) eqn:Hget; simpl.
    + by rewrite PyDictFacts.get_remove_eq.
    + unfold without. rewrite PyDictFacts.remove_absent by done. by destruct s.
  - by destruct (PyDict.get k (_cache s)).
Qed.

Lemma pruned_expired now s s' k :
  pruned now s s' → expired now k s' = expired now k s.
Proof. intros [Ht _]. unfold expired. by rewrite Ht. Qed.

Lemma drain_unbounded now g s s' :
  truthy (max_paths c) = false → pruned now s s' →
  ∃ s'', drain c now g s' =
           (Return (filter (λ k, is_visible now s k = true) g), s'').
Proof.
  intros Ht. revert s'. induction g as [|k g IH]; intros s' Hpr; simpl.
  - by eexists.
  - unfold mbind, prog_mbind, prog_bind, mret, prog_mret, prog_ret.
    rewrite contains_unbounded by done.
    assert (is_visible now s k =
            negb (expired now k s') &&
            bool_decide (is_Some (PyDict.get k (_cache s')))) as Hvis.
    { unfold is_visible. rewrite contains_unbounded by done. simpl.
      rewrite (pruned_expired now s s') by done.
      destruct (expired now k s) eqn:Hexp; [done|]. simpl.
      destruct Hpr as [_ Hpr]. by rewrite Hpr. }
    destruct (IH (if expired now k s' then without k s' else s'))
      as (s'' & ->).
    { destruct (expired now k s') eqn:Hexp; [|done].
      destruct Hpr as [Htimes Hpr]. split; [done|].
      intros k' Hk'. simpl. rewrite <- Hpr by done.
      apply PyDictFacts.get_remove_ne. intros ->.
      unfold expired in Hexp, Hk'. rewrite Htimes in Hexp. congruence. }
    exists s''. f_equal. rewrite <- Hvis. f_equal.
    destruct (is_visible now s k) eqn:Hv; symmetry.
    + by apply filter_cons_True.
    + apply filter_cons_False. congruence.
Qed.

Lemma drain_total now g s : ∃ ks s', drain c now g s = (Return ks, s').
Proof.
  revert s. induction g as [|k g IH]; intros s; simpl; [by eauto|].
  unfold mbind, prog_mbind, prog_bind, mret, prog_mret, prog_ret.
  destruct (contains_total now k s) as (b & s1 & ->).
  destruct (IH s1) as (ks & s' & ->). eauto.
Qed.

(** [list(g)] is what repeated [next()] calls at the same clock reading
    hand out. *)
Lemma drain_next now g s :
  match next c now g s with
  | (Return (Some k, g'), s') =>
      ∃ ks s'', drain c now g' s' = (Return ks, s'') ∧
                drain c now g s = (Return (k :: ks), s'')
  | (Return (None, _), s') => drain c now g s = (Return [], s')
  | (Raise _, _) => False
  end.
Proof.
  revert s. induction g as [|k0 g IH]; intros s; simpl; [done|].
  unfold mbind, prog_mbind, prog_bind, mret, prog_mret, prog_ret.
  destruct (contains_total now k0 s) as (b & s1 & ->). destruct b.
  - destruct (drain_total now g s1) as (ks & s'' & ->). eauto.
  - specialize (IH s1). destruct (next c now g s1) as [[[[k|] g']|e] s'].
    + destruct IH as (ks & s'' & Hd & ->). eauto.
    + by rewrite IH.
    + done.
Qed.

(** A key whose expiry test fires when the generator reaches it is
    skipped. *)
Lemma next_skips_expired now k g s :
  expired now k s = true →
  ∃ s', contains c now k s = (Return false, s') ∧
        next c now (k :: g) s = next c now g s'.
Proof.
  intros Hexp. destruct (getitem_expired now k s Hexp) as (s' & Hget & _).
  exists s'. simpl. unfold contains, mbind, prog_mbind, prog_bind.
  by rewrite Hget.
Qed.

End Facts.

(** C7. With caching enabled and neither expiry nor a capacity bound, a
    read that follows a write of the same path returns the listing written,
    whatever the clock shows at the read. *)
Theorem set_then_get_plain (c : Config) (s : State) (p : string) (L : Listing)
    (t0 t1 : Z) :
  use_listings_cache c = true →
  listings_expiry_time c = None →
  truthy (max_paths c) = false →
  let s1 := (setitem c t0 p L s).2 in
  setitem c t0 p L s = (Return (), s1) ∧
  getitem c t1 p s1 = (Return L, s1).
Proof.
  intros Hu He Hm. run. rewrite Hu, He, Hm. simpl.
  split; [done|]. by rewrite PyDictFacts.get_set_eq.
Qed.

Lemma set_then_get_plain_witness :
  use_listings_cache plain = true ∧
  listings_expiry_time plain = None ∧
  truthy (max_paths plain) = false ∧
  let s1 := (setitem plain 5 "a" (listing_of 1) init).2 in
  setitem plain 5 "a" (listing_of 1) init = (Return (), s1) ∧
  getitem plain 99999 "a" s1 = (Return (listing_of 1), s1).
Proof.
  split_and!; [reflexivity..|].
  apply (set_then_get_plain plain init "a" (listing_of 1) 5 99999); reflexivity.
Defined.

(** C4. With caching and expiry [T] on (neither [T] nor the capacity
    bound, if there is one, negative): a write of [p] returns; a read of
    [p] at the same clock reading, or at any reading not more than [T]
    after the write, returns the listing written; and once more than [T]
    has passed since the last write of [p] (whatever else was done to the
    cache in between), a read of [p] raises [KeyError], [p] is not in the
    store after it, and a following [contains] of [p] is false. *)
Theorem expiry_set_get (c : Config) (T : Z) (s : State) (p : string)
    (L : Listing) (t0 : Z) :
  use_listings_cache c = true →
  listings_expiry_time c = Some T →
  wf_config c = true →
  ∃ s1, setitem c t0 p L s = (Return (), s1) ∧
    (getitem c t0 p s1).1 = Return L ∧
    (∀ t1, t1 - t0 ≤ T → (getitem c t1 p s1).1 = Return L) ∧
    (∀ os t1 t2,
       forallb (λ o, negb (writes p o)) os = true → T < t1 - t0 →
       ∃ s3, getitem c t1 p (exec_all c os s1) = (Raise KeyError, s3) ∧
             PyDict.get p (_cache s3) = None ∧
             (contains c t2 p s3).1 = Return false).
Proof.
  intros Hu He Hwf.
  destruct (setitem_spec c t0 p L s Hu Hwf) as (s1 & Hset & Hget & Htime & Hq).
  rewrite He in Htime. specialize (Htime (mk_is_Some _ _ eq_refl)).
  assert (0 ≤ T) as HT.
  { unfold wf_config in Hwf. rewrite He in Hwf.
    apply andb_true_iff in Hwf as [H0 _]. by apply Z.leb_le. }
  assert (∀ t1, t1 - t0 ≤ T → (getitem c t1 p s1).1 = Return L) as Hfresh.
  { intros t1 Ht1.
    destruct (getitem_hit c t1 p L s1 Hget) as (s2 & -> & _); [| |done].
    - unfold expired. rewrite He, Htime. simpl. apply Z.ltb_ge. lia.
    - intros Htr. destruct (Hq Htr) as [r ->]. apply list_elem_of_here. }
  exists s1. split_and!; [done | apply Hfresh; lia | done |].
  intros os t1 t2 Hos Ht1.
  destruct (getitem_expired c t1 p (exec_all c os s1)) as (s3 & Hg & Hnone & _).
  { unfold expired. rewrite He, exec_all_times, Htime by done. simpl.
    apply Z.ltb_lt. lia. }
  exists s3. split_and!; [done..|].
  unfold contains.
  by destruct (getitem_absent c t2 p s3 Hnone) as (s4 & -> & _).
Qed.

Lemma expiry_set_get_witness :
  use_listings_cache (expiring_bounded 10 2) = true ∧
  listings_expiry_time (expiring_bounded 10 2) = Some 10 ∧
  wf_config (expiring_bounded 10 2) = true ∧
  ∃ s1, setitem (expiring_bounded 10 2) 100 "a" (listing_of 1) init = (Return (), s1) ∧
    (getitem (expiring_bounded 10 2) 100 "a" s1).1 = Return (listing_of 1) ∧
    (∀ t1, t1 - 100 ≤ 10 →
       (getitem (expiring_bounded 10 2) t1 "a" s1).1 = Return (listing_of 1)) ∧
    (∀ os t1 t2,
       forallb (λ o, negb (writes "a" o)) os = true → 10 < t1 - 100 →
       ∃ s3, getitem (expiring_bounded 10 2) t1 "a"
               (exec_all (expiring_bounded 10 2) os s1) = (Raise KeyError, s3) ∧
             PyDict.get "a" (_cache s3) = None ∧
             (contains (expiring_bounded 10 2) t2 "a" s3).1 = Return false).
Proof.
  split_and!; [reflexivity..|].
  apply (expiry_set_get (expiring_bounded 10 2) 10 init "a" (listing_of 1) 100);
    reflexivity.
Defined.

(** C6. With caching on and a capacity bound: when [p1] is no longer in
    the tracker, a write of [p1] returns, drops the entry [p1] may still
    have in the store, stores the new listing last and puts [p1] back in
    the tracker, and a read of [p1] that follows (before the new listing expires, when
    expiry is on) returns the listing just written. *)
Theorem retouch_evicted (c : Config) (n : Z) (s : State) (p1 : string)
    (L2 : Listing) (t0 : Z) :
  use_listings_cache c = true →
  wf_config c = true →
  max_paths c = Some n → 0 < n →
  p1 ∉ _q s →
  ∃ s1, setitem c t0 p1 L2 s = (Return (), s1) ∧
    _cache s1 = PyDict.remove p1 (_cache s) ++ [(p1, L2)] ∧
    p1 ∈ _q s1 ∧
    ∀ t1, (∀ T, listings_expiry_time c = Some T → t1 - t0 ≤ T) →
          (getitem c t1 p1 s1).1 = Return L2.
Proof.
  intros Hu Hwf Hn Hpos Hout.
  assert (truthy (max_paths c) = true) as Htr.
  { rewrite Hn. simpl. apply negb_true_iff, Z.eqb_neq. lia. }
  destruct (setitem_spec c t0 p1 L2 s Hu Hwf) as (s1 & Hset & Hget & Htime & Hq).
  destruct (Hq Htr) as [r Hr].
  exists s1. split_and!; [done | | rewrite Hr; apply list_elem_of_here |].
  - rewrite setitem_unfold in Hset by done. injection Hset as <-. simpl.
    rewrite touched_cache_miss by done.
    apply PyDictFacts.set_absent, PyDictFacts.get_remove_eq.
  - intros t1 Ht1.
    destruct (getitem_hit c t1 p1 L2 s1 Hget) as (s2 & -> & _); [| |done].
    + unfold expired. destruct (listings_expiry_time c) as [T|] eqn:He; [|done].
      rewrite Htime by done. simpl. apply Z.ltb_ge. specialize (Ht1 T eq_refl). lia.
    + intros _. rewrite Hr. apply list_elem_of_here.
Qed.

Lemma retouch_evicted_witness :
  use_listings_cache (bounded 2) = true ∧
  wf_config (bounded 2) = true ∧
  max_paths (bounded 2) = Some 2 ∧ 0 < 2 ∧
  ("p1" ∉ _q four_writes) ∧
  ∃ s1, setitem (bounded 2) 7 "p1" (listing_of 9) four_writes = (Return (), s1) ∧
    _cache s1 = PyDict.remove "p1" (_cache four_writes) ++ [("p1", listing_of 9)] ∧
    "p1" ∈ _q s1 ∧
    ∀ t1, (∀ T, listings_expiry_time (bounded 2) = Some T → t1 - 7 ≤ T) →
          (getitem (bounded 2) t1 "p1" s1).1 = Return (listing_of 9).
Proof.
  assert ("p1" ∉ _q four_writes) as Hout
    by (apply (bool_decide_unpack _); vm_compute; exact I).
  split_and!; [reflexivity | reflexivity | reflexivity | lia | exact Hout |].
  apply (retouch_evicted (bounded 2) 2 four_writes "p1" (listing_of 9) 7);
    [reflexivity | reflexivity | reflexivity | lia | exact Hout].
Defined.

(** C3 (what the code does). With caching on, no expiry and
    [max_paths = n > 0], the tracker is an [lru_cache] of size [n + 1]: after
    a write of [p1] followed by writes of up to [n] other paths, a read of
    [p1] still returns its listing. So after [n + 1] distinct paths have been
    touched the first one is still readable, where the documented bound of
    [n] most recent listings would make the read raise [KeyError]. *)
Theorem first_path_survives (c : Config) (n : Z) (s : State) (p1 : string)
    (L1 : Listing) (t0 t1 : Z) (os : list op) :
  use_listings_cache c = true →
  listings_expiry_time c = None →
  max_paths c = Some n → 0 < n →
  forallb (write_other p1) os = true →
  (length os ≤ Z.to_nat n)%nat →
  (getitem c t1 p1 (exec_all c (OSet t0 p1 L1 :: os) s)).1 = Return L1.
Proof.
  intros Hu He Hn Hpos Hos Hlen.
  assert (wf_config c = true) as Hwf.
  { unfold wf_config. rewrite He, Hn. simpl. apply Z.leb_le. lia. }
  assert (truthy (max_paths c) = true) as Htr.
  { rewrite Hn. simpl. apply negb_true_iff, Z.eqb_neq. lia. }
  change (exec_all c (OSet t0 p1 L1 :: os) s)
    with (exec_all c os (setitem c t0 p1 L1 s).2).
  destruct (setitem_spec c t0 p1 L1 s Hu Hwf) as (s1 & -> & Hget & _ & Hq).
  destruct (Hq Htr) as [r Hr]. simpl.
  destruct (writes_other_keep c n p1 L1 os Hu Hn Hpos Hos 1%nat s1)
    as [Hin Hget']; [lia | rewrite Hr; apply list_elem_of_here | done |].
  destruct (getitem_hit c t1 p1 L1 _ Hget') as (s2 & -> & _); [| |done].
  - unfold expired. by rewrite He.
  - done.
Qed.

Lemma first_path_survives_witness :
  use_listings_cache (bounded 2) = true ∧
  listings_expiry_time (bounded 2) = None ∧
  max_paths (bounded 2) = Some 2 ∧ 0 < 2 ∧
  forallb (write_other "p1")
    [OSet 2 "p2" (listing_of 2); OSet 3 "p3" (listing_of 3)] = true ∧
  (length [OSet 2 "p2" (listing_of 2); OSet 3 "p3" (listing_of 3)] ≤ Z.to_nat 2)%nat ∧
  (getitem (bounded 2) 4 "p1"
     (exec_all (bounded 2)
        [OSet 1 "p1" (listing_of 1); OSet 2 "p2" (listing_of 2);
         OSet 3 "p3" (listing_of 3)] init)).1 = Return (listing_of 1).
Proof.
  split_and!; [reflexivity | reflexivity | reflexivity | lia | reflexivity
              | vm_compute; lia |].
  apply (first_path_survives (bounded 2) 2 init "p1" (listing_of 1) 1 4
           [OSet 2 "p2" (listing_of 2); OSet 3 "p3" (listing_of 3)]);
    [reflexivity | reflexivity | reflexivity | lia | reflexivity | vm_compute; lia].
Defined.

(** With [max_paths = 2] and three distinct paths written in turn, all
    three are readable; it takes a fourth path for a read of the first to
    raise [KeyError] and purge it. *)
Example three_paths_bound_two :
  let s3 := exec_all (bounded 2)
              [OSet 1 "p1" (listing_of 1); OSet 2 "p2" (listing_of 2);
               OSet 3 "p3" (listing_of 3)] init in
  let s4 := exec (bounded 2) (OSet 4 "p4" (listing_of 4)) s3 in
  (getitem (bounded 2) 5 "p1" s3).1 = Return (listing_of 1) ∧
  (getitem (bounded 2) 5 "p3" s3).1 = Return (listing_of 3) ∧
  (getitem (bounded 2) 5 "p1" s4).1 = Raise KeyError ∧
  PyDict.get "p1" (_cache s4) = Some (listing_of 1) ∧
  PyDict.get "p1" (_cache (getitem (bounded 2) 5 "p1" s4).2) = None ∧
  (getitem (bounded 2) 5 "p4" s4).1 = Return (listing_of 4).
Proof. vm_compute. done. Qed.

(** C10 (as stated, refuted). With both a capacity bound and expiry on, a
    read of a path that was never written raises [KeyError] from the expiry
    branch, before the tracker is called: the state, tracker included, is
    exactly what it was. *)
Lemma get_absent_expiry_leaves_tracker :
  let c := expiring_bounded 10 2 in
  let s := exec c (OSet 100 "b" (listing_of 1)) init in
  PyDict.get "a" (_cache s) = None ∧
  getitem c 101 "a" s = (Raise KeyError, s) ∧
  _q (getitem c 101 "a" s).2 = ["b"].
Proof. vm_compute. done. Qed.

(** C10 (amended). With a capacity bound [n > 0], a read of a path [p]
    that is not in the store raises [KeyError]. If the expiry test fires
    for [p] the state is unchanged. Otherwise the store and the write
    times are unchanged and [p] becomes the most recently used key of the
    tracker: moved to the front if it was there, else added at the front
    with the least recently used key dropped when the tracker was full.
    This can push a stored path out of the tracker, so that its next read
    raises and purges it: under [max_paths = 1], after writes of "a" and
    "b", a read of "a" returns its listing, but after a failed read of the
    absent "z" the path "a" is still stored, no longer tracked, and its
    next read raises [KeyError] and removes it. *)
Theorem get_absent_touches (c : Config) (n : Z) (now : Z) (p : string) (s : State) :
  max_paths c = Some n → 0 < n →
  PyDict.get p (_cache s) = None →
  (expired c now p s = true → getitem c now p s = (Raise KeyError, s)) ∧
  (expired c now p s = false →
     getitem c now p s =
       (Raise KeyError,
        {| _cache := _cache s; _times := _times s;
           _q := if decide (p ∈ _q s) then p :: filter (λ k, k ≠ p) (_q s)
                 else p :: take (Z.to_nat n) (_q s) |})) ∧
  (let c1 := bounded 1 in
   let s0 := exec_all c1 [OSet 0 "a" (listing_of 1); OSet 0 "b" (listing_of 2)] init in
   let s1 := (getitem c1 0 "z" s0).2 in
   (getitem c1 0 "a" s0).1 = Return (listing_of 1) ∧
   (getitem c1 0 "z" s0).1 = Raise KeyError ∧
   PyDict.get "a" (_cache s1) = Some (listing_of 1) ∧
   _q s0 = ["b"; "a"] ∧ _q s1 = ["z"; "b"] ∧
   (getitem c1 0 "a" s1).1 = Raise KeyError ∧
   PyDict.get "a" (_cache (getitem c1 0 "a" s1).2) = None).
Proof.
  intros Hn Hpos Hnone. split_and!.
  - intros Hexp. by rewrite getitem_unfold, Hexp, Hnone.
  - intros Hexp. rewrite getitem_unfold, Hexp. unfold cache_lookup.
    rewrite touched_cache_absent, Hnone by done. f_equal.
    unfold touched, q, maxsize. rewrite Hn. simpl.
    replace (n =? 0) with false by (symmetry; apply Z.eqb_neq; lia). simpl.
    destruct (decide (p ∈ _q s)); simpl; [done|].
    rewrite PyDictFacts.remove_absent by done.
    replace (Z.to_nat (n + 1)) with (S (Z.to_nat n)) by lia. done.
  - vm_compute. done.
Qed.

Lemma get_absent_touches_witness :
  max_paths (bounded 2) = Some 2 ∧ 0 < 2 ∧
  PyDict.get "z" (_cache four_writes) = None ∧
  (expired (bounded 2) 9 "z" four_writes = false →
   getitem (bounded 2) 9 "z" four_writes =
     (Raise KeyError,
      {| _cache := _cache four_writes; _times := _times four_writes;
         _q := if decide ("z" ∈ _q four_writes)
               then "z" :: filter (λ k, k ≠ "z") (_q four_writes)
               else "z" :: take (Z.to_nat 2) (_q four_writes) |})).
Proof.
  split_and!; [reflexivity | lia | reflexivity |].
  apply (get_absent_touches (bounded 2) 2 9 "z" four_writes);
    [reflexivity | lia | reflexivity].
Defined.

(** C5 (as stated, refuted). Two runs in which [iterate] does not produce
    the paths visible at the call. (1) Under [max_paths = 1], after writes
    of "a", "b" and "c", the paths "b" and "c" are visible, yet the
    iteration produces nothing: the test of "a" pushes "b" out of the
    tracker, the test of "b" purges it and pushes "c" out, and so on.
    (2) Under an expiry of 10, a generator made at time 105 over a path
    written at time 100, visible then, hands the path out when it is
    advanced at time 105 but produces nothing when it is first advanced
    at time 120: the visibility test runs when the generator is
    advanced, so an expiry after the snapshot is reflected. *)
Lemma iterate_not_call_time_snapshot :
  (let c := bounded 1 in
   let s := exec_all c [OSet 0 "a" (listing_of 1); OSet 0 "b" (listing_of 2);
                        OSet 0 "c" (listing_of 3)] init in
   visible_paths c 0 s = ["b"; "c"] ∧ (iterate c 0 s).1 = Return []) ∧
  (let c := expiring 10 in
   let s := exec c (OSet 100 "a" (listing_of 1)) init in
   visible_paths c 105 s = ["a"] ∧
   ∃ g s1 s2, iter s = (Return g, s1) ∧ g = ["a"] ∧
              (next c 105 g s1).1 = Return (Some "a", []) ∧
              next c 120 g s1 = (Return (None, []), s2)).
Proof.
  split.
  - vm_compute. done.
  - split; [vm_compute; done|]. do 3 eexists. vm_compute. done.
Qed.

End DirCacheFacts.


(** ** Properties of the transaction *)

Module TransactionFacts.
Import Transaction.

Definition act (commit : bool) : action := if commit then Commit else Discard.

(** The world after further calls on registered files. *)
Definition logged (evs : list event) (w : World) : World :=
  {| files := files w; _intrans := _intrans w;
     _transaction := _transaction w; calls := calls w ++ evs |}.

(** The calls made between world [w] and a later world [w']. *)
Definition new_calls (w w' : World) : list event :=
  drop (length (calls w)) (calls w').

(** How many times [a] was called on [h] in a list of calls. *)
Definition invocations (a : action) (h : handle) (evs : list event) : nat :=
  length (filter (λ e, e = (a, h)) evs).

(** Sample behaviours of the registered files. *)
Definition never_fails : action → handle → bool := λ _ _, false.

Definition fails_on (bad : handle) : action → handle → bool :=
  λ _ h, bool_decide (h = bad).

Definition idle : World :=
  {| files := []; _intrans := false; _transaction := Some 0%nat; calls := [] |}.

Lemma logged_nil w : logged [] w = w.
Proof. destruct w. unfold logged. simpl. by rewrite app_nil_r. Qed.

Lemma logged_logged evs evs' w :
  logged evs' (logged evs w) = logged (evs ++ evs') w.
Proof. unfold logged. simpl. by rewrite app_assoc. Qed.

Lemma new_calls_logged evs w w' :
  calls w' = calls w ++ evs → new_calls w w' = evs.
Proof. unfold new_calls. intros ->. by rewrite drop_app_length. Qed.

Lemma invocations_map_same a h hs :
  NoDup hs → h ∈ hs → invocations a h (map (pair a) hs) = 1%nat.
Proof.
  unfold invocations. induction 1 as [|x hs Hx Hnd IH]; intros Hin.
  - by apply elem_of_nil in Hin.
  - simpl. destruct (decide (x = h)) as [->|Hne].
    + rewrite filter_cons_True by done. simpl. f_equal.
      clear IH Hin Hnd. induction hs as [|y hs IH]; [done|].
      apply not_elem_of_cons in Hx as [Hy Hx]. simpl.
      rewrite filter_cons_False by congruence. auto.
    + rewrite filter_cons_False by congruence.
      apply IH. apply elem_of_cons in Hin as [->|]; done.
Qed.

Lemma invocations_map_other a a' h hs :
  a ≠ a' → invocations a' h (map (pair a) hs) = 0%nat.
Proof.
  intros Hne. unfold invocations. induction hs as [|y hs IH]; [done|].
  simpl. rewrite filter_cons_False by congruence. done.
Qed.

Section Facts.
Variable fails : action → handle → bool.

Definition finalize (commit : bool) (f : handle) : M unit :=
  if commit then call fails Commit f else call fails Discard f.

Lemma call_ok a f w :
  fails a f = false → call fails a f w = (Return (), logged [(a, f)] w).
Proof. unfold call. by intros ->. Qed.

Lemma call_fail a f w :
  fails a f = true → call fails a f w = (Raise (HandleError a f), logged [(a, f)] w).
Proof. unfold call. by intros ->. Qed.

Lemma finalize_call commit f : finalize commit f = call fails (act commit) f.
Proof. by destruct commit. Qed.

(** The sweep over files none of whose calls raises. *)
Lemma sweep_ok commit hs w :
  (∀ h, h ∈ hs → fails (act commit) h = false) →
  for_each (finalize commit) hs w =
    (Return (), logged (map (pair (act commit)) hs) w).
Proof.
  revert w. induction hs as [|h hs IH]; intros w Hok; simpl.
  - by rewrite logged_nil.
  - unfold mbind, prog_mbind, prog_bind.
    rewrite finalize_call, call_ok by (apply Hok, list_elem_of_here).
    rewrite IH by (intros; apply Hok; by apply list_elem_of_further).
    by rewrite logged_logged.
Qed.

(** The sweep stops at the first file whose call raises. *)
Lemma sweep_fail commit pre h post w :
  (∀ x, x ∈ pre → fails (act commit) x = false) →
  fails (act commit) h = true →
  for_each (finalize commit) (pre ++ h :: post) w =
    (Raise (HandleError (act commit) h),
     logged (map (pair (act commit)) (pre ++ [h])) w).
Proof.
  revert w. induction pre as [|x pre IH]; intros w Hok Hfail; simpl.
  - unfold mbind, prog_mbind, prog_bind.
    by rewrite finalize_call, call_fail.
  - unfold mbind, prog_mbind, prog_bind.
    rewrite finalize_call, call_ok by (apply Hok, list_elem_of_here).
    rewrite IH by (try done; intros; apply Hok; by apply list_elem_of_further).
    by rewrite logged_logged.
Qed.

Lemma complete_unfold commit w :
  complete fails commit w =
    match for_each (finalize commit) (files w) w with
    | (Return _, w') =>
        (Return (), {| files := []; _intrans := false;
                       _transaction := _transaction w'; calls := calls w' |})
    | (Raise e, w') => (Raise e, w')
    end.
Proof.
  unfold complete, get_files, set_files, set_intrans, mbind, prog_mbind, prog_bind.
  simpl.
  unfold finalize.
  by destruct (for_each _ (files w) w) as [[[]|e] w'].
Qed.

Lemma block_registers hs exc w :
  block hs exc w =
    (match exc with Some e => Raise e | None => Return () end,
     {| files := files w ++ hs; _intrans := _intrans w;
        _transaction := _transaction w; calls := calls w |}).
Proof.
  unfold block, mbind, prog_mbind, prog_bind.
  assert (for_each (E:=exn) register hs w =
          (Return (), {| files := files w ++ hs; _intrans := _intrans w;
                         _transaction := _transaction w; calls := calls w |}))
    as ->.
  { revert w. induction hs as [|h hs IH]; intros w; simpl.
    - rewrite app_nil_r. by destruct w.
    - unfold mbind, prog_mbind, prog_bind, register at 1.
      rewrite IH. simpl. by rewrite <- app_assoc. }
  by destruct exc.
Qed.

(** The scoped block when none of the sweep's calls raises. *)
Lemma with_block_ok hs exc w :
  (∀ h, h ∈ hs → fails (act (bool_decide (exc = None))) h = false) →
  with_ fails (block hs exc) w =
    (match exc with Some e => Raise e | None => Return () end,
     {| files := []; _intrans := false; _transaction := None;
        calls := calls w ++ map (pair (act (bool_decide (exc = None)))) hs |}).
Proof.
  intros Hok. unfold with_, __enter__, start, set_files, set_intrans.
  unfold mbind, prog_mbind, prog_bind. simpl.
  rewrite block_registers. simpl.
  assert (__exit__ fails exc
            {| files := hs; _intrans := true;
               _transaction := _transaction w; calls := calls w |} =
          (Return (),
           {| files := []; _intrans := false; _transaction := None;
              calls := calls w ++ map (pair (act (bool_decide (exc = None)))) hs |}))
    as Hexit.
  { unfold __exit__, mbind, prog_mbind, prog_bind.
    rewrite complete_unfold. simpl. by rewrite sweep_ok. }
  destruct exc as [e|]; by rewrite Hexit.
Qed.

End Facts.

(** C1. A transaction used as a [with] block over files [hs] none of
    whose finalizers raises. If the block ends normally, the calls made
    are exactly [commit()] on each file in registration order: once per
    registered file, and no [discard()]. If the block raises, they are
    exactly [discard()] on each file in registration order, no [commit()],
    and the block's exception propagates. In both cases the transaction
    ends with an empty file list and the filesystem is not in a
    transaction. *)
Theorem scoped_block_finalizes (fails : action → handle → bool)
    (hs : list handle) (w : World) :
  (∀ a h, h ∈ hs → fails a h = false) →
  (∃ w', with_ fails (block hs None) w = (Return (), w') ∧
         new_calls w w' = map (pair Commit) hs ∧
         (NoDup hs → ∀ h, h ∈ hs → invocations Commit h (new_calls w w') = 1%nat) ∧
         (∀ h, invocations Discard h (new_calls w w') = 0%nat) ∧
         files w' = [] ∧ _intrans w' = false ∧ _transaction w' = None) ∧
  (∀ e, ∃ w', with_ fails (block hs (Some e)) w = (Raise e, w') ∧
         new_calls w w' = map (pair Discard) hs ∧
         (NoDup hs → ∀ h, h ∈ hs → invocations Discard h (new_calls w w') = 1%nat) ∧
         (∀ h, invocations Commit h (new_calls w w') = 0%nat) ∧
         files w' = [] ∧ _intrans w' = false ∧ _transaction w' = None).
Proof.
  intros Hok. split; [|intros e]; eexists;
    (split; [apply with_block_ok; intros; by apply Hok|]);
    rewrite (new_calls_logged (map (pair _) hs)) by done; simpl;
    split_and!; try done.
  - intros. by apply invocations_map_same.
  - intros. by apply invocations_map_other.
  - intros. by apply invocations_map_same.
  - intros. by apply invocations_map_other.
Qed.

Lemma scoped_block_finalizes_witness :
  let w := idle in
  (∀ a h, h ∈ [1; 2; 3]%nat → never_fails a h = false) ∧
  (∃ w', with_ never_fails (block [1; 2; 3]%nat None) w = (Return (), w') ∧
         new_calls w w' = [(Commit, 1); (Commit, 2); (Commit, 3)]%nat ∧
         files w' = [] ∧ _intrans w' = false) ∧
  (∃ w', with_ never_fails (block [1; 2; 3]%nat (Some (BlockError 0))) w
           = (Raise (BlockError 0), w') ∧
         new_calls w w' = [(Discard, 1); (Discard, 2); (Discard, 3)]%nat ∧
         files w' = [] ∧ _intrans w' = false).
Proof.
  intros w. split; [done|].
  destruct (scoped_block_finalizes never_fails [1; 2; 3]%nat w) as [Hc Hd];
    [done|].
  split.
  - destruct Hc as (w' & ? & ? & _ & _ & ? & ? & _). by exists w'.
  - destruct (Hd (BlockError 0)) as (w' & ? & ? & _ & _ & ? & ? & _). by exists w'.
Defined.

(** C2 (as stated, refuted). With files 1 and 2 registered and the
    [commit()] of file 1 raising, [complete(commit=True)] raises that
    exception after the single call on file 1: file 2 gets no call, the
    file list is not cleared and the filesystem is still in a
    transaction. *)
Lemma failed_commit_stops_sweep :
  let w := {| files := [1; 2]%nat; _intrans := true;
              _transaction := Some 0%nat; calls := [] |} in
  complete (fails_on 1%nat) true w =
    (Raise (HandleError Commit 1%nat),
     {| files := [1; 2]%nat; _intrans := true;
        _transaction := Some 0%nat; calls := [(Commit, 1%nat)] |}).
Proof. vm_compute. done. Qed.

(** C2 (amended). [complete(commit)] finalizes the registered files in
    registration order. If none of these calls raises, every file gets
    exactly one call, the list is cleared and the filesystem is no longer
    in a transaction. If the call on some file is the first to raise, the
    files before it and that file have each had their one call, the
    exception propagates at once, and the files after it get no call;
    the file list and the in-transaction mark stay as they were. *)
Theorem complete_sweep (fails : action → handle → bool) (commit : bool) (w : World) :
  ((∀ h, h ∈ files w → fails (act commit) h = false) →
   complete fails commit w =
     (Return (),
      {| files := []; _intrans := false; _transaction := _transaction w;
         calls := calls w ++ map (pair (act commit)) (files w) |})) ∧
  (∀ pre h post,
     files w = pre ++ h :: post →
     (∀ x, x ∈ pre → fails (act commit) x = false) →
     fails (act commit) h = true →
     complete fails commit w =
       (Raise (HandleError (act commit) h),
        {| files := files w; _intrans := _intrans w; _transaction := _transaction w;
           calls := calls w ++ map (pair (act commit)) (pre ++ [h]) |})).
Proof.
  split.
  - intros Hok. rewrite complete_unfold. by rewrite sweep_ok.
  - intros pre h post Hfiles Hok Hfail.
    rewrite complete_unfold, Hfiles, sweep_fail by done.
    unfold logged. by rewrite Hfiles.
Qed.

Lemma complete_sweep_witness :
  let w := {| files := [1; 2; 3]%nat; _intrans := true;
              _transaction := Some 0%nat; calls := [] |} in
  (∀ h, h ∈ files w → never_fails (act false) h = false) ∧
  complete never_fails false w =
    (Return (),
     {| files := []; _intrans := false; _transaction := Some 0%nat;
        calls := [(Discard, 1); (Discard, 2); (Discard, 3)]%nat |}) ∧
  files w = [1%nat] ++ 2%nat :: [3%nat] ∧
  (∀ x, x ∈ [1%nat] → fails_on 2%nat (act true) x = false) ∧
  fails_on 2%nat (act true) 2%nat = true ∧
  complete (fails_on 2%nat) true w =
    (Raise (HandleError Commit 2%nat),
     {| files := [1; 2; 3]%nat; _intrans := true; _transaction := Some 0%nat;
        calls := [(Commit, 1); (Commit, 2)]%nat |}).
Proof.
  intros w.
  assert (∀ x, x ∈ [1%nat] → fails_on 2%nat (act true) x = false) as Hpre.
  { intros x Hx. apply list_elem_of_singleton in Hx as ->. reflexivity. }
  split_and!; [done | | reflexivity | exact Hpre | reflexivity |].
  - apply (proj1 (complete_sweep never_fails false w)). done.
  - apply (proj2 (complete_sweep (fails_on 2%nat) true w) [1%nat] 2%nat [3%nat]);
      [reflexivity | exact Hpre | reflexivity].
Defined.

(** C8. [start()] returns with an empty file list and the filesystem
    marked as in a transaction, whatever the state before it. So a
    transaction entered after an earlier [complete], or an earlier [with]
    block, starts from an empty list, also when that earlier sweep raised
    part of the way and left its files registered. *)
Theorem start_resets (fails : action → handle → bool) (w : World) :
  (∃ w', start w = (Return (), w') ∧ files w' = [] ∧ _intrans w' = true) ∧
  (∀ commit, ∃ w', __enter__ (complete fails commit w).2 = (Return (), w') ∧
                   files w' = [] ∧ _intrans w' = true) ∧
  (∀ hs exc, ∃ w', __enter__ (with_ fails (block hs exc) w).2 = (Return (), w') ∧
                   files w' = [] ∧ _intrans w' = true).
Proof.
  split_and!; [|intros commit|intros hs exc]; by eexists.
Qed.

(** A sweep that raised part of the way leaves its files registered; the
    next [start()] drops them. *)
Example start_after_failed_sweep :
  let w1 := (with_ (fails_on 2%nat) (block [1; 2]%nat None) idle).2 in
  (with_ (fails_on 2%nat) (block [1; 2]%nat None) idle).1
    = Raise (HandleError Commit 2%nat) ∧
  files w1 = [1; 2]%nat ∧ _intrans w1 = true ∧
  files (start w1).2 = [] ∧ _intrans (start w1).2 = true.
Proof. vm_compute. done. Qed.

End TransactionFacts.


(** ** Properties of the Dask variant *)

Module DaskFacts.
Import Transaction DaskTransaction.

Definition act (commit : bool) : action := if commit then Commit else Discard.

Definition method_of (commit : bool) : method := if commit then MCommit else MDiscard.

(** The worker with other actor files and further calls on files. *)
Definition actor_state (fs : list handle) (evs : list event) (k : Worker) : Worker :=
  {| actor_files := fs; remote_calls := remote_calls k ++ evs;
     inbox := inbox k; results := results k;
     next_future := next_future k; pace := pace k |}.

(** A sample world of the Dask variant: files 7 and 8 were opened in the
    transaction; the append of 8 has not been run by the worker yet. *)
Definition two_files (pace : list nat) : World :=
  {| files := Actor; _intrans := true;
     worker := {| actor_files := [7%nat]; remote_calls := [];
                  inbox := [(0%nat, MAppend 8%nat)]; results := ∅;
                  next_future := 1%nat; pace := pace |} |}.

Section Facts.
Variable fails : action → handle → bool.

(** What the actor's methods leave alone. *)
Definition frame (k k1 : Worker) : Prop :=
  inbox k1 = inbox k ∧ results k1 = results k ∧
  next_future k1 = next_future k ∧ pace k1 = pace k.

(** The worker once it has run every queued call. *)
Definition settled (k : Worker) : Worker := worker_run fails (length (inbox k)) k.

(** The worker of [invoke]: the call is queued under the next future. *)
Definition queued (m : method) (k : Worker) : Worker :=
  {| actor_files := actor_files k; remote_calls := remote_calls k;
     inbox := inbox k ++ [(next_future k, m)]; results := results k;
     next_future := S (next_future k); pace := tail (pace k) |}.

Lemma actor_state_id k : actor_state (actor_files k) [] k = k.
Proof. destruct k. unfold actor_state. simpl. by rewrite app_nil_r. Qed.

Lemma remote_sweep_ok a hs fs evs k :
  (∀ h, h ∈ hs → fails a h = false) →
  for_each (remote_call fails a) hs (actor_state fs evs k) =
    (Return (), actor_state fs (evs ++ map (pair a) hs) k).
Proof.
  revert evs. induction hs as [|h hs IH]; intros evs Hok; simpl.
  - by rewrite app_nil_r.
  - unfold mbind, prog_mbind, prog_bind, remote_call at 1.
    rewrite Hok by apply list_elem_of_here.
    cbn [actor_files remote_calls inbox results next_future pace actor_state].
    replace ((remote_calls k ++ evs) ++ [(a, h)])
      with (remote_calls k ++ (evs ++ [(a, h)])) by by rewrite app_assoc.
    fold (actor_state fs (evs ++ [(a, h)]) k).
    rewrite IH by (intros; by apply Hok, list_elem_of_further).
    by rewrite <- app_assoc.
Qed.

Lemma run_append f k :
  run_method fails (MAppend f) k =
    (Return (), actor_state (actor_files k ++ [f]) [] k).
Proof.
  unfold run_method, actor_append, get_actor_files, set_actor_files.
  unfold mbind, prog_mbind, prog_bind, actor_state. simpl. by rewrite app_nil_r.
Qed.

Lemma run_finalize commit k :
  (∀ h, h ∈ actor_files k → fails (act commit) h = false) →
  run_method fails (method_of commit) k =
    (Return (), actor_state [] (map (pair (act commit)) (actor_files k)) k).
Proof.
  intros Hok.
  assert (run_method fails (method_of commit) k =
          (fs ← get_actor_files;
           for_each (remote_call fails (act commit)) fs ;; set_actor_files []) k)
    as -> by by destruct commit.
  pose proof (remote_sweep_ok (act commit) (actor_files k) (actor_files k) [] k Hok)
    as Hsweep.
  rewrite actor_state_id in Hsweep.
  unfold get_actor_files, set_actor_files, mbind, prog_mbind, prog_bind.
  simpl. by rewrite Hsweep.
Qed.

Lemma sweep_frame a hs k : frame k (for_each (remote_call fails a) hs k).2.
Proof.
  revert k. induction hs as [|h hs IH]; intros k; simpl; [done|].
  unfold mbind, prog_mbind, prog_bind, remote_call at 1.
  destruct (fails a h); simpl; [done|].
  match goal with |- frame _ (for_each _ _ ?k').2 => specialize (IH k') end.
  destruct IH as (? & ? & ? & ?). by split_and!.
Qed.

Lemma run_method_frame m k : frame k (run_method fails m k).2.
Proof.
  destruct m as [| |f]; simpl;
    unfold actor_commit, actor_discard, actor_append, get_actor_files,
      set_actor_files, mbind, prog_mbind, prog_bind; simpl; [| |done].
  - pose proof (sweep_frame Commit (actor_files k) k) as Hf.
    destruct (for_each _ _ k) as [[[]|e] k1]; simpl in *; done.
  - pose proof (sweep_frame Discard (actor_files k) k) as Hf.
    destruct (for_each _ _ k) as [[[]|e] k1]; simpl in *; done.
Qed.

Lemma worker_step_inbox k : inbox (worker_step fails k) = tail (inbox k).
Proof.
  unfold worker_step. destruct (inbox k) as [|[i m] rest] eqn:Hk; [by rewrite Hk|].
  match goal with |- context [run_method fails m ?k'] =>
    pose proof (run_method_frame m k') as (Hi & _);
    destruct (run_method fails m k') as [r k1] end.
  simpl in *. done.
Qed.

Lemma worker_step_idle k : inbox k = [] → worker_step fails k = k.
Proof. unfold worker_step. by intros ->. Qed.

Lemma settled_step k : settled (worker_step fails k) = settled k.
Proof.
  unfold settled. rewrite worker_step_inbox.
  destruct (inbox k) as [|x rest] eqn:Hk; simpl.
  - by rewrite worker_step_idle.
  - done.
Qed.

Lemma settled_run n k : settled (worker_run fails n k) = settled k.
Proof.
  revert k. induction n as [|n IH]; intros k; simpl; [done|].
  by rewrite IH, settled_step.
Qed.

Lemma worker_run_inbox n k : inbox (worker_run fails n k) = drop n (inbox k).
Proof.
  revert k. induction n as [|n IH]; intros k; simpl; [by rewrite drop_0|].
  rewrite IH, worker_step_inbox.
  destruct (inbox k); simpl; [by rewrite drop_nil | done].
Qed.

Lemma run_until_idle i k :
  inbox k = [] → run_until fails i (length (inbox k)) k = settled k.
Proof. unfold settled. by intros ->. Qed.

(** Waiting for the call queued last is waiting for the whole queue. *)
Lemma run_until_last i m pre k :
  inbox k = pre ++ [(i, m)] →
  run_until fails i (length (inbox k)) k = settled k.
Proof.
  revert k. induction pre as [|x pre IH]; intros k Hk.
  all: assert (pending i k = true) as Hp
    by (unfold pending; rewrite Hk; apply bool_decide_eq_true_2;
        rewrite fmap_app; apply elem_of_app; right; apply list_elem_of_here).
  all: rewrite <- settled_step.
  all: replace (length (inbox k))
         with (S (length (inbox (worker_step fails k))))
         by (by rewrite worker_step_inbox, Hk).
  all: cbn [run_until]; rewrite Hp.
  - apply run_until_idle. by rewrite worker_step_inbox, Hk.
  - apply IH. by rewrite worker_step_inbox, Hk.
Qed.

(** The queue of appends [ps] followed by call [i] of [commit] or
    [discard], run to the end on files that do not raise. *)
Lemma settled_appends_then_finalize commit i (ps : list (nat * handle)) k :
  inbox k = map (λ p, (p.1, MAppend p.2)) ps ++ [(i, method_of commit)] →
  (∀ h, h ∈ actor_files k ++ ps.*2 → fails (act commit) h = false) →
  actor_files (settled k) = [] ∧
  remote_calls (settled k) =
    remote_calls k ++ map (pair (act commit)) (actor_files k ++ ps.*2) ∧
  inbox (settled k) = [] ∧
  results (settled k) !! i = Some (Return ()).
Proof.
  revert k. induction ps as [|[j f] ps IH]; intros k Hk Hok.
  - unfold settled. rewrite Hk. simpl in *. unfold worker_step. rewrite Hk.
    rewrite app_nil_r in *. rewrite run_finalize by done. simpl.
    split_and!; [done..|]. apply lookup_insert_eq.
  - rewrite <- settled_step.
    assert (worker_step fails k =
            {| actor_files := actor_files k ++ [f]; remote_calls := remote_calls k;
               inbox := map (λ p, (p.1, MAppend p.2)) ps ++ [(i, method_of commit)];
               results := <[j := Return ()]> (results k);
               next_future := next_future k; pace := pace k |}) as ->.
    { unfold worker_step. rewrite Hk. cbn [map app fst snd].
      rewrite run_append. simpl. by rewrite app_nil_r. }
    match goal with |- context [settled ?k'] =>
      destruct (IH k') as (Hf & Hc & Hi & Hr) end.
    + done.
    + simpl. rewrite <- app_assoc. exact Hok.
    + simpl in *. rewrite <- app_assoc in Hc. done.
Qed.

Lemma drop_snoc_cases {X} (n : nat) (l : list X) (x : X) :
  drop n (l ++ [x]) = [] ∨ ∃ pre, drop n (l ++ [x]) = pre ++ [x].
Proof.
  destruct (decide (n ≤ length l)%nat).
  - right. exists (drop n l). by rewrite drop_app_le.
  - left. apply drop_ge. rewrite length_app. simpl. lia.
Qed.

(** However far the worker got on its own, once [.result()] is back the
    whole queue has been run. *)
Lemma invoke_result m w :
  files w = Actor →
  (fut ← files_call fails m; result fails fut) w =
    (match results (settled (queued m (worker w))) !! next_future (worker w) with
     | Some (Return _) => Return ()
     | Some (Raise e) => Raise e
     | None => Raise UnknownFuture
     end,
     with_worker (settled (queued m (worker w))) w).
Proof.
  intros Hf. unfold mbind, prog_mbind, prog_bind, files_call, invoke.
  rewrite Hf. fold (queued m (worker w)).
  set (k' := queued m (worker w)). set (p := hd 0%nat (pace (worker w))).
  unfold result. cbn [worker with_worker files _intrans].
  assert (run_until fails (next_future (worker w))
            (length (inbox (worker_run fails p k'))) (worker_run fails p k')
          = settled k') as ->.
  { rewrite <- (settled_run p k').
    destruct (drop_snoc_cases p (inbox (worker w))
                (next_future (worker w), m)) as [Hnil|[pre Hpre]].
    - apply run_until_idle. by rewrite worker_run_inbox.
    - eapply run_until_last. rewrite worker_run_inbox. exact Hpre. }
  by destruct (results (settled k') !! next_future (worker w)) as [[[]|e]|].
Qed.

End Facts.

(** X21. In the Dask variant, as long as [self.files] is the actor
    handle that [__init__] put there (no [start()] has replaced it), the
    worker's queue holds appends only, and no remote finalizer raises:
    [complete(commit)] returns; the actor's files (those
    already appended and those whose append was still queued) have each
    had [commit()] called when [commit] is true, [discard()] when it is
    false, in order; at the return the future of that call is resolved
    and nothing is left in the worker's queue, however far the worker had
    got on its own; the actor's list is empty and the filesystem is no
    longer in a transaction. *)
Theorem remote_complete (fails : action → handle → bool) (commit : bool)
    (w : World) (ps : list (nat * handle)) :
  files w = Actor →
  inbox (worker w) = map (λ p, (p.1, MAppend p.2)) ps →
  (∀ h, h ∈ actor_files (worker w) ++ ps.*2 → fails (act commit) h = false) →
  ∃ w', complete fails commit w = (Return (), w') ∧
        remote_calls (worker w') =
          remote_calls (worker w) ++
          map (pair (act commit)) (actor_files (worker w) ++ ps.*2) ∧
        results (worker w') !! next_future (worker w) = Some (Return ()) ∧
        inbox (worker w') = [] ∧
        actor_files (worker w') = [] ∧
        _intrans w' = false.
Proof.
  intros Hf Hin Hok.
  destruct (settled_appends_then_finalize fails commit (next_future (worker w)) ps
              (queued (method_of commit) (worker w)))
    as (Hfiles & Hcalls & Hinbox & Hres); [simpl; by rewrite Hin | done |].
  assert (complete fails commit w =
          ((fut ← files_call fails (method_of commit); result fails fut) ;;
           set_intrans false) w) as -> by by destruct commit.
  unfold mbind at 1, prog_mbind at 1, prog_bind at 1.
  rewrite invoke_result, Hres by done.
  unfold set_intrans. eexists. split; [reflexivity|]. done.
Qed.

Lemma remote_complete_witness :
  files (two_files [0%nat]) = Actor ∧
  inbox (worker (two_files [0%nat])) =
    map (λ p, (p.1, MAppend p.2)) [(0%nat, 8%nat)] ∧
  (∀ h, h ∈ [7; 8]%nat → TransactionFacts.never_fails (act true) h = false) ∧
  ∃ w', complete TransactionFacts.never_fails true (two_files [0%nat])
          = (Return (), w') ∧
        remote_calls (worker w') = [(Commit, 7); (Commit, 8)]%nat ∧
        results (worker w') !! 1%nat = Some (Return ()) ∧
        inbox (worker w') = [] ∧
        actor_files (worker w') = [] ∧
        _intrans w' = false.
Proof.
  split_and!; [reflexivity | reflexivity | done |].
  apply (remote_complete TransactionFacts.never_fails true (two_files [0%nat])
           [(0%nat, 8%nat)]); [reflexivity | reflexivity | done].
Defined.

(** Without [.result()] the call may still be queued when the caller goes
    on: here the worker has run nothing, and no file has been committed. *)
Example invoke_alone_leaves_call_queued :
  let w' := (files_call TransactionFacts.never_fails MCommit (two_files [0%nat])).2 in
  inbox (worker w') = [(0%nat, MAppend 8%nat); (1%nat, MCommit)] ∧
  remote_calls (worker w') = [] ∧
  results (worker w') !! 1%nat = None.
Proof. vm_compute. done. Qed.

(** After the inherited [start()], [self.files] is a plain list, and
    [complete] raises [AttributeError] with the filesystem still marked as
    in a transaction. *)
Example complete_after_start :
  let w1 := (start (two_files [])).2 in
  files w1 = LocalList [] ∧
  complete TransactionFacts.never_fails true w1 = (Raise AttributeError, w1) ∧
  _intrans w1 = true.
Proof. vm_compute. done. Qed.

End DaskFacts.

(** ** More on the directory cache: the rest of the mapping interface *)

Module DirCacheMore.
Import DirCache DirCacheFacts.

(** [__init__]: the options as given and an empty cache. *)
Definition __init__ (use_listings_cache : bool) (listings_expiry_time : option Z)
    (max_paths : option Z) : Config * State :=
  ({| DirCache.use_listings_cache := use_listings_cache;
      DirCache.listings_expiry_time := listings_expiry_time;
      DirCache.max_paths := max_paths |}, init).

(** [__reduce__]: the constructor's three arguments; the constructor
    itself is [DirCache]. *)
Definition __reduce__ (c : Config) (s : State) : bool * option Z * option Z :=
  (use_listings_cache c, listings_expiry_time c, max_paths c).

(** Unpickling: the constructor applied to the reduced arguments. *)
Definition rebuild (args : bool * option Z * option Z) : Config * State :=
  let '(u, e, m) := args in __init__ u e m.

(** What [self._q(key)] does to the list of remembered keys. *)
Definition q_track (c : Config) (key : string) (l : list string) : list string :=
  if decide (key ∈ l) then key :: filter (λ k, k ≠ key) l
  else take (maxsize c) (key :: l).

(** The tracker holds no key twice and no more keys than its size. *)
Definition tracker_ok (c : Config) (l : list string) : Prop :=
  NoDup l ∧ (length l ≤ maxsize c)%nat.

(** [o] is an operation on the single path [k]. *)
Definition on_path (k : string) (o : op) : bool :=
  match o with
  | OGet _ k' | OSet _ k' _ | ODel k' | OContains _ k' => bool_decide (k' = k)
  | OClear => false
  | OLen => true
  end.

(** The options of [c] with [max_paths = None]. *)
Definition unbounded (c : Config) : Config :=
  {| use_listings_cache := use_listings_cache c;
     listings_expiry_time := listings_expiry_time c;
     max_paths := None |}.

(** [o] is not a [clear] and is not an operation on path [k]. *)
Definition avoids (k : string) (o : op) : bool :=
  match o with
  | OGet _ k' | OSet _ k' _ | ODel k' | OContains _ k' => negb (bool_decide (k' = k))
  | OClear => false
  | OLen => true
  end.

(** Writes of the given paths, in turn, at the given clock reading. *)
Definition writes_of (now : Z) (kvs : list (string * Listing)) : list op :=
  map (λ kv, OSet now kv.1 kv.2) kvs.

Section Dict.
Context {V : Type}.
Implicit Types (k : string) (v : V) (d : PyDict.dict V).

Lemma get_None_keys k d : PyDict.get k d = None ↔ k ∉ PyDict.keys d.
Proof.
  unfold PyDict.keys. induction d as [|[k' v'] d IH]; simpl.
  - split; [intros _; apply not_elem_of_nil | done].
  - rewrite not_elem_of_cons. destruct (decide (k = k')) as [->|Hne].
    + split; [done | intros [[] _]; done].
    + rewrite IH. split; [done | by intros [_ ?]].
Qed.

Lemma keys_remove k d :
  PyDict.keys (PyDict.remove k d) = filter (λ k', k' ≠ k) (PyDict.keys d).
Proof.
  unfold PyDict.keys. induction d as [|[k' v'] d IH]; [done|].
  cbn [PyDict.remove fmap list_fmap fst]. destruct (decide (k = k')) as [->|Hne].
  - rewrite filter_cons_False; [done | intros H; by apply H].
  - rewrite filter_cons_True; [|congruence]. cbn [fmap list_fmap fst]. by f_equal.
Qed.

Lemma keys_set_present k v d :
  k ∈ PyDict.keys d → PyDict.keys (PyDict.set k v d) = PyDict.keys d.
Proof.
  unfold PyDict.keys. induction d as [|[k' v'] d IH]; intros Hin.
  - by apply elem_of_nil in Hin.
  - cbn [PyDict.set fmap list_fmap fst] in *.
    destruct (decide (k = k')) as [->|Hne]; [done|].
    cbn [fmap list_fmap fst]. f_equal. apply IH.
    apply elem_of_cons in Hin as [?|?]; [done | done].
Qed.

Lemma keys_set_absent k v d :
  k ∉ PyDict.keys d → PyDict.keys (PyDict.set k v d) = PyDict.keys d ++ [k].
Proof.
  intros Hout. rewrite PyDictFacts.set_absent by by apply get_None_keys.
  unfold PyDict.keys. by rewrite fmap_app.
Qed.

Lemma length_remove_present k d :
  NoDup (PyDict.keys d) → k ∈ PyDict.keys d →
  S (length (PyDict.remove k d)) = length d.
Proof.
  unfold PyDict.keys. induction d as [|[k' v'] d IH]; intros Hnd Hin.
  - by apply elem_of_nil in Hin.
  - cbn [PyDict.remove fmap list_fmap fst] in *.
    apply NoDup_cons in Hnd as [Hk' Hnd].
    destruct (decide (k = k')) as [->|Hne].
    + rewrite PyDictFacts.remove_absent; [done|]. by apply get_None_keys.
    + simpl. f_equal. apply IH; [done|].
      apply elem_of_cons in Hin as [?|?]; done.
Qed.

Lemma keys_NoDup_remove k d :
  NoDup (PyDict.keys d) → NoDup (PyDict.keys (PyDict.remove k d)).
Proof. rewrite keys_remove. apply NoDup_filter. Qed.

Lemma keys_NoDup_set k v d :
  NoDup (PyDict.keys d) → NoDup (PyDict.keys (PyDict.set k v d)).
Proof.
  intros Hnd. destruct (decide (k ∈ PyDict.keys d)).
  - by rewrite keys_set_present.
  - rewrite keys_set_absent by done. apply NoDup_app. split_and!; [done| |].
    + intros x Hx Hx'. apply list_elem_of_singleton in Hx' as ->. done.
    + apply NoDup_singleton.
Qed.

End Dict.

Section More.
Variable c : Config.

Lemma q_tracker key s : _q (q c key s).2 = q_track c key (_q s).
Proof. unfold q, q_track. by destruct (decide _). Qed.

Lemma q_cache key s :
  _cache (q c key s).2 = _cache s ∨
  _cache (q c key s).2 = PyDict.remove key (_cache s).
Proof. unfold q. destruct (decide _); simpl; auto. Qed.

Lemma touched_tracker key s :
  _q (touched c key s) = if truthy (max_paths c) then q_track c key (_q s) else _q s.
Proof. unfold touched. destruct (truthy _); [apply q_tracker | done]. Qed.

Lemma touched_cache key s :
  _cache (touched c key s) = _cache s ∨
  _cache (touched c key s) = PyDict.remove key (_cache s).
Proof. unfold touched. destruct (truthy _); [apply q_cache | auto]. Qed.

(** The state a read leaves behind, by cases. *)
Lemma getitem_state now k s :
  (getitem c now k s).2 = s ∨
  (getitem c now k s).2 = touched c k s ∨
  (getitem c now k s).2 = touched c k (without k s).
Proof.
  rewrite getitem_unfold. unfold cache_lookup.
  destruct (expired c now k s).
  - destruct (PyDict.get k (_cache s)); [|auto].
    right; right. by destruct (PyDict.get k _).
  - right; left. by destruct (PyDict.get k _).
Qed.

Lemma setitem_state now k v s :
  (setitem c now k v s).2 = s ∨
  (_cache (setitem c now k v s).2 = PyDict.set k v (_cache (touched c k s)) ∧
   _q (setitem c now k v s).2 = _q (touched c k s)).
Proof.
  destruct (use_listings_cache c) eqn:Hu.
  - right. by rewrite setitem_unfold.
  - left. unfold setitem. by rewrite Hu.
Qed.

(** A read returns only a listing that is stored, not expired and, under
    a capacity bound, still tracked; and then it leaves the store and the
    write times as they are. *)
Lemma getitem_Return_inv now k l s s' :
  getitem c now k s = (Return l, s') →
  expired c now k s = false ∧
  PyDict.get k (_cache s) = Some l ∧
  (truthy (max_paths c) = true → k ∈ _q s) ∧
  s' = touched c k s ∧ _cache s' = _cache s ∧ _times s' = _times s.
Proof.
  rewrite getitem_unfold. unfold cache_lookup.
  destruct (expired c now k s).
  - destruct (PyDict.get k (_cache s)); [|done].
    rewrite touched_cache_absent by apply PyDictFacts.get_remove_eq.
    simpl. by rewrite PyDictFacts.get_remove_eq.
  - unfold touched, q. destruct (truthy (max_paths c)).
    + destruct (decide (k ∈ _q s)); simpl.
      * destruct (PyDict.get k (_cache s)) eqn:Hget; [|done].
        intros [= <- <-]. by split_and!.
      * by rewrite PyDictFacts.get_remove_eq.
    + destruct (PyDict.get k (_cache s)) eqn:Hget; [|done].
      intros [= <- <-]. by split_and!.
Qed.

(** An operation on path [k] leaves the store entry of any other path
    alone. *)
Lemma exec_frame o k k' s :
  on_path k o = true → k' ≠ k →
  PyDict.get k' (_cache (exec c o s)) = PyDict.get k' (_cache s).
Proof.
  intros Hon Hne.
  destruct o as [now k0|now k0 v|k0|now k0| |]; simpl in *; try done;
    try (apply bool_decide_eq_true in Hon as ->).
  - destruct (getitem_state now k s) as [->|[->| ->]]; [done| |].
    + destruct (touched_cache k s) as [->| ->]; [done|].
      by apply PyDictFacts.get_remove_ne.
    + destruct (touched_cache k (without k s)) as [->| ->]; simpl;
        rewrite ?PyDictFacts.get_remove_ne by done; done.
  - destruct (setitem_state now k v s) as [->|[-> _]]; [done|].
    rewrite PyDictFacts.get_set_ne by done.
    destruct (touched_cache k s) as [->| ->]; [done|].
    by apply PyDictFacts.get_remove_ne.
  - unfold delitem, cache_del. destruct (PyDict.get k (_cache s)); [|done].
    simpl. by apply PyDictFacts.get_remove_ne.
  - assert ((contains c now k s).2 = (getitem c now k s).2) as ->.
    { unfold contains. by destruct (getitem c now k s) as [[?|[]] ?]. }
    destruct (getitem_state now k s) as [->|[->| ->]]; [done| |].
    + destruct (touched_cache k s) as [->| ->]; [done|].
      by apply PyDictFacts.get_remove_ne.
    + destruct (touched_cache k (without k s)) as [->| ->]; simpl;
        rewrite ?PyDictFacts.get_remove_ne by done; done.
Qed.

Lemma q_track_ok key l : tracker_ok c l → tracker_ok c (q_track c key l).
Proof.
  intros [Hnd Hlen]. unfold q_track. destruct (decide (key ∈ l)) as [Hin|Hout].
  - split.
    + apply NoDup_cons. split; [|by apply NoDup_filter].
      intros Hk. apply list_elem_of_filter in Hk as [Hk _]. by apply Hk.
    + simpl. pose proof (length_filter_lt (λ k, k ≠ key) l key Hin) as Hlt.
      assert (¬ key ≠ key) as Hk by (intros H; by apply H).
      specialize (Hlt Hk). lia.
  - split.
    + eapply sublist_NoDup; [|apply sublist_take]. by apply NoDup_cons.
    + rewrite length_take. lia.
Qed.

Lemma touched_ok key s : tracker_ok c (_q s) → tracker_ok c (_q (touched c key s)).
Proof.
  intros Hok. rewrite touched_tracker. destruct (truthy _); [|done].
  by apply q_track_ok.
Qed.

Lemma getitem_ok now k s :
  tracker_ok c (_q s) → tracker_ok c (_q (getitem c now k s).2).
Proof.
  intros Hok. destruct (getitem_state now k s) as [->|[->| ->]]; [done| |];
    by apply touched_ok.
Qed.

Lemma contains_state now k s : (contains c now k s).2 = (getitem c now k s).2.
Proof. unfold contains. by destruct (getitem c now k s) as [[?|[]] ?]. Qed.

Lemma exec_tracker_ok o s : tracker_ok c (_q s) → tracker_ok c (_q (exec c o s)).
Proof.
  intros Hok. destruct o as [now k|now k v|k|now k| |]; simpl; try done.
  - by apply getitem_ok.
  - destruct (setitem_state now k v s) as [->|[_ ->]]; [done|]. by apply touched_ok.
  - unfold delitem, cache_del. by destruct (PyDict.get k _).
  - rewrite contains_state. by apply getitem_ok.
Qed.

Lemma touched_keys_NoDup key s :
  NoDup (PyDict.keys (_cache s)) → NoDup (PyDict.keys (_cache (touched c key s))).
Proof.
  intros Hnd. destruct (touched_cache key s) as [->| ->]; [done|].
  by apply keys_NoDup_remove.
Qed.

Lemma getitem_keys_NoDup now k s :
  NoDup (PyDict.keys (_cache s)) →
  NoDup (PyDict.keys (_cache (getitem c now k s).2)).
Proof.
  intros Hnd. destruct (getitem_state now k s) as [->|[->| ->]]; [done| |].
  - by apply touched_keys_NoDup.
  - apply touched_keys_NoDup. simpl. by apply keys_NoDup_remove.
Qed.

Lemma exec_keys_NoDup o s :
  NoDup (PyDict.keys (_cache s)) → NoDup (PyDict.keys (_cache (exec c o s))).
Proof.
  intros Hnd. destruct o as [now k|now k v|k|now k| |]; simpl; try done.
  - by apply getitem_keys_NoDup.
  - destruct (setitem_state now k v s) as [->|[-> _]]; [done|].
    by apply keys_NoDup_set, touched_keys_NoDup.
  - unfold delitem, cache_del. destruct (PyDict.get k _); [|done].
    simpl. by apply keys_NoDup_remove.
  - rewrite contains_state. by apply getitem_keys_NoDup.
  - apply NoDup_nil_2.
Qed.

(** What every run of operations from a new cache keeps true. *)
Lemma run_invariant (P : State → Prop) os s :
  (∀ o s, P s → P (exec c o s)) → P s → P (exec_all c os s).
Proof.
  intros Hstep. revert s. induction os as [|o os IH]; intros s Hs; [done|].
  change (exec_all c (o :: os) s) with (exec_all c os (exec c o s)). auto.
Qed.

Lemma reachable_keys_NoDup os : NoDup (PyDict.keys (_cache (exec_all c os init))).
Proof.
  apply (run_invariant (λ s, NoDup (PyDict.keys (_cache s)))).
  - intros. by apply exec_keys_NoDup.
  - apply NoDup_nil_2.
Qed.

Lemma caching_off_store_empty os :
  use_listings_cache c = false → _cache (exec_all c os init) = [].
Proof.
  intros Hu. apply (run_invariant (λ s, _cache s = [])); [|done].
  intros o s Hs. destruct o as [now k|now k v|k|now k| |]; simpl; try done.
  - destruct (getitem_state now k s) as [->|[->| ->]]; [done| |].
    + destruct (touched_cache k s) as [->| ->]; by rewrite ?Hs.
    + destruct (touched_cache k (without k s)) as [->| ->]; simpl; by rewrite ?Hs.
  - unfold setitem. by rewrite Hu.
  - unfold delitem, cache_del. by rewrite Hs.
  - rewrite contains_state.
    destruct (getitem_state now k s) as [->|[->| ->]]; [done| |].
    + destruct (touched_cache k s) as [->| ->]; by rewrite ?Hs.
    + destruct (touched_cache k (without k s)) as [->| ->]; simpl; by rewrite ?Hs.
Qed.

Lemma drain_sublist now g s : sublist (match (drain c now g s).1 with
                                       | Return ks => ks
                                       | Raise _ => []
                                       end) g.
Proof.
  revert s. induction g as [|k g IH]; intros s; simpl; [done|].
  unfold mbind, prog_mbind, prog_bind, mret, prog_mret, prog_ret.
  destruct (contains_total c now k s) as (b & s1 & ->).
  specialize (IH s1). destruct (drain_total c now g s1) as (ks & s' & Hd).
  rewrite Hd in *. simpl in *. destruct b; by constructor.
Qed.

Lemma setitem_absent_keys now k v s :
  use_listings_cache c = true → k ∉ PyDict.keys (_cache s) →
  PyDict.keys (_cache (setitem c now k v s).2) = PyDict.keys (_cache s) ++ [k].
Proof.
  intros Hu Hout. rewrite setitem_unfold by done. simpl.
  rewrite touched_cache_absent by by apply get_None_keys.
  by apply keys_set_absent.
Qed.

Lemma writes_absent_keys now kvs s :
  use_listings_cache c = true →
  NoDup kvs.*1 → (∀ k, k ∈ kvs.*1 → k ∉ PyDict.keys (_cache s)) →
  PyDict.keys (_cache (exec_all c (writes_of now kvs) s))
    = PyDict.keys (_cache s) ++ kvs.*1.
Proof.
  intros Hu. revert s. induction kvs as [|[k v] kvs IH]; intros s Hnd Hout.
  - simpl. by rewrite app_nil_r.
  - cbn [fmap list_fmap fst] in *. apply NoDup_cons in Hnd as [Hk Hnd].
    change (exec_all c (writes_of now ((k, v) :: kvs)) s)
      with (exec_all c (writes_of now kvs) (setitem c now k v s).2).
    rewrite IH; [| done |].
    + rewrite setitem_absent_keys; [|done|]. { by rewrite <- app_assoc. }
      apply Hout, list_elem_of_here.
    + intros k' Hk'. rewrite setitem_absent_keys; [|done|].
      * apply not_elem_of_app. split; [by apply Hout, list_elem_of_further|].
        intros Heq. apply list_elem_of_singleton in Heq as ->. done.
      * apply Hout, list_elem_of_here.
Qed.

End More.

(** X1. In every state a new cache can reach, the tracker holds no path
    twice and at most [maxsize] paths, that is [max_paths + 1] of them;
    without a capacity bound it stays empty. *)
Theorem tracker_bounded (c : Config) (os : list op) :
  NoDup (_q (exec_all c os init)) ∧
  (length (_q (exec_all c os init)) ≤ maxsize c)%nat ∧
  (∀ n, max_paths c = Some n → 0 ≤ n →
        (length (_q (exec_all c os init)) ≤ Z.to_nat n + 1)%nat) ∧
  (truthy (max_paths c) = false → _q (exec_all c os init) = []).
Proof.
  assert (tracker_ok c (_q (exec_all c os init))) as [Hnd Hlen].
  { apply (run_invariant c (λ s, tracker_ok c (_q s))).
    - intros. by apply exec_tracker_ok.
    - split; [apply NoDup_nil_2 | simpl; lia]. }
  split_and!; [done | done | |].
  - intros n Hn Hpos. unfold maxsize in Hlen. rewrite Hn in Hlen. lia.
  - intros Ht. apply (run_invariant c (λ s, _q s = [])); [|done].
    intros o s Hs. destruct o as [now k|now k v|k|now k| |]; simpl; try done.
    + destruct (getitem_state c now k s) as [->|[->| ->]]; [done| |];
        by rewrite touched_tracker, Ht.
    + destruct (setitem_state c now k v s) as [->|[_ ->]]; [done|].
      by rewrite touched_tracker, Ht.
    + unfold delitem, cache_del. by destruct (PyDict.get k _).
    + rewrite contains_state.
      destruct (getitem_state c now k s) as [->|[->| ->]]; [done| |];
        by rewrite touched_tracker, Ht.
Qed.

(** X2. When a read returns a listing, that listing is the one stored
    under the path, the path's expiry test did not fire and, under a
    capacity bound, the path was in the tracker; the read leaves the store
    and the write times exactly as they were. *)
Theorem read_returns_stored (c : Config) (now : Z) (k : string) (l : Listing)
    (s s' : State) :
  getitem c now k s = (Return l, s') →
  PyDict.get k (_cache s) = Some l ∧
  expired c now k s = false ∧
  (truthy (max_paths c) = true → k ∈ _q s) ∧
  _cache s' = _cache s ∧ _times s' = _times s.
Proof.
  intros Hget. apply getitem_Return_inv in Hget as (? & ? & ? & ? & ? & ?).
  by split_and!.
Qed.

Lemma read_returns_stored_witness :
  let c := expiring_bounded 10 2 in
  let s := exec c (OSet 100 "a" (listing_of 1)) init in
  let s' := (getitem c 105 "a" s).2 in
  getitem c 105 "a" s = (Return (listing_of 1), s') ∧
  PyDict.get "a" (_cache s) = Some (listing_of 1) ∧
  _cache s' = _cache s ∧ _times s' = _times s.
Proof.
  intros c s s'.
  assert (getitem c 105 "a" s = (Return (listing_of 1), s')) as Hget by reflexivity.
  split; [exact Hget|].
  destruct (read_returns_stored c 105 "a" (listing_of 1) s s' Hget)
    as (? & _ & _ & ? & ?).
  by split_and!.
Defined.

(** X3. The check-then-read idiom is safe: when [contains] has returned
    true for a path, a read of that path in the state it left returns the
    stored listing, at the same clock reading and at any reading at which
    the path's expiry test does not fire. *)
Theorem check_then_read (c : Config) (now : Z) (k : string) (s s' : State) :
  contains c now k s = (Return true, s') →
  ∃ l, PyDict.get k (_cache s) = Some l ∧
       (getitem c now k s').1 = Return l ∧
       ∀ now', expired c now' k s' = false → (getitem c now' k s').1 = Return l.
Proof.
  unfold contains. destruct (getitem c now k s) as [[l|[]] s1] eqn:Hget; [|done].
  intros [= <-].
  apply getitem_Return_inv in Hget as (Hexp & Hl & Hq & -> & Hc & Ht).
  exists l. split; [done|].
  assert (∀ now', expired c now' k (touched c k s) = false →
                  (getitem c now' k (touched c k s)).1 = Return l) as Hread.
  { intros now' Hexp'.
    destruct (getitem_hit c now' k l (touched c k s)) as (s2 & -> & _);
      [by rewrite Hc | done | | done].
    intros Htr. rewrite touched_tracker, Htr. unfold q_track.
    rewrite decide_True by auto. apply list_elem_of_here. }
  split; [|done]. apply Hread. unfold expired in *. by rewrite Ht.
Qed.

Lemma check_then_read_witness :
  let c := expiring_bounded 10 2 in
  let s := exec c (OSet 100 "a" (listing_of 1)) init in
  let s' := (contains c 105 "a" s).2 in
  contains c 105 "a" s = (Return true, s') ∧
  ∃ l, PyDict.get "a" (_cache s) = Some l ∧
       (getitem c 105 "a" s').1 = Return l ∧
       ∀ now', expired c now' "a" s' = false → (getitem c now' "a" s').1 = Return l.
Proof.
  intros c s s'.
  assert (contains c 105 "a" s = (Return true, s')) as Hc by reflexivity.
  split; [exact Hc|]. exact (check_then_read c 105 "a" s s' Hc).
Defined.

(** X4. Eviction and expiry only ever remove the path being touched: a
    run of reads, writes, deletes and membership tests of other paths,
    with no [clear], leaves the listing stored under a path as it was. *)
Theorem other_paths_untouched (c : Config) (k : string) (os : list op) (s : State) :
  forallb (avoids k) os = true →
  PyDict.get k (_cache (exec_all c os s)) = PyDict.get k (_cache s).
Proof.
  revert s. induction os as [|o os IH]; intros s Hos; [done|].
  simpl in Hos. apply andb_true_iff in Hos as [Ho Hos].
  change (exec_all c (o :: os) s) with (exec_all c os (exec c o s)).
  rewrite IH by done.
  destruct o as [now k0|now k0 v|k0|now k0| |]; simpl in Ho; try done;
    apply negb_true_iff, bool_decide_eq_false in Ho;
    apply (exec_frame c _ k0); simpl; try done; by apply bool_decide_eq_true.
Qed.

Lemma other_paths_untouched_witness :
  let c := bounded 1 in
  let os := [OSet 1 "b" (listing_of 2); OGet 2 "z"; OSet 3 "c" (listing_of 3);
             ODel "b"; OContains 4 "y"] in
  let s := exec c (OSet 0 "a" (listing_of 1)) init in
  forallb (avoids "a") os = true ∧
  PyDict.get "a" (_cache (exec_all c os s)) = PyDict.get "a" (_cache s).
Proof.
  intros c os s. split; [reflexivity|].
  apply (other_paths_untouched c "a" os s). reflexivity.
Defined.

(** X5. With [use_listings_cache] false the cache stays empty whatever is
    done to it: after any run of operations on a new cache, the store has
    no entry, every read raises [KeyError], every membership test is false
    and a delete raises [KeyError]. *)
Theorem caching_off_always_empty (c : Config) (os : list op) (now : Z) (k : string) :
  use_listings_cache c = false →
  (len (exec_all c os init)).1 = Return 0%nat ∧
  (getitem c now k (exec_all c os init)).1 = Raise KeyError ∧
  (contains c now k (exec_all c os init)).1 = Return false ∧
  (delitem k (exec_all c os init)).1 = Raise KeyError.
Proof.
  intros Hu. pose proof (caching_off_store_empty c os Hu) as Hempty.
  assert (PyDict.get k (_cache (exec_all c os init)) = None) as Hnone
    by by rewrite Hempty.
  destruct (getitem_absent c now k _ Hnone) as (s' & Hget & _).
  split_and!.
  - unfold len. by rewrite Hempty.
  - by rewrite Hget.
  - unfold contains. by rewrite Hget.
  - unfold delitem, cache_del. by rewrite Hnone.
Qed.

Lemma caching_off_always_empty_witness :
  let c := {| use_listings_cache := false; listings_expiry_time := Some 10;
              max_paths := Some 2 |} in
  let os := [OSet 1 "a" (listing_of 1); OGet 2 "a"; OSet 3 "b" (listing_of 2)] in
  use_listings_cache c = false ∧
  (len (exec_all c os init)).1 = Return 0%nat ∧
  (getitem c 4 "a" (exec_all c os init)).1 = Raise KeyError.
Proof.
  intros c os. split; [reflexivity|].
  destruct (caching_off_always_empty c os 4 "a") as (? & ? & _); [reflexivity|].
  by split.
Defined.

(** X6. [clear] empties the store under every configuration: after it the
    length is 0, every read raises [KeyError] and iteration produces
    nothing. It does not touch the write times or the tracker. *)
Theorem clear_hides_all (c : Config) (s : State) (now : Z) (k : string) :
  ∃ s', clear s = (Return (), s') ∧
        (len s').1 = Return 0%nat ∧
        (getitem c now k s').1 = Raise KeyError ∧
        (contains c now k s').1 = Return false ∧
        (iterate c now s').1 = Return [] ∧
        _times s' = _times s ∧ _q s' = _q s.
Proof.
  eexists. split; [reflexivity|]. simpl.
  match goal with |- context [getitem c now k ?s'] =>
    destruct (getitem_absent c now k s' eq_refl) as (s2 & Hget & _) end.
  unfold contains. rewrite Hget. by split_and!.
Qed.

(** X7. [del d[k]] on a state a new cache can reach: for a path that is
    not stored it raises [KeyError] and changes nothing; for a stored path
    it returns, the store has exactly one entry fewer, a read of the path
    raises [KeyError], and the write times and the tracker are as before. *)
Theorem delitem_removes_one (c : Config) (os : list op) (k : string) (now : Z) :
  let s := exec_all c os init in
  (PyDict.get k (_cache s) = None → delitem k s = (Raise KeyError, s)) ∧
  (is_Some (PyDict.get k (_cache s)) →
   ∃ s', delitem k s = (Return (), s') ∧
         S (length (_cache s')) = length (_cache s) ∧
         (getitem c now k s').1 = Raise KeyError ∧
         _times s' = _times s ∧ _q s' = _q s).
Proof.
  intros s. unfold delitem, cache_del. split.
  - by intros ->.
  - intros [l Hl]. rewrite Hl. eexists. split; [reflexivity|]. simpl.
    split_and!; try done.
    + apply length_remove_present; [apply reachable_keys_NoDup|].
      destruct (decide (k ∈ PyDict.keys (_cache s))) as [|Hout]; [done|].
      apply get_None_keys in Hout. congruence.
    + match goal with |- context [getitem c now k ?s'] =>
        destruct (getitem_absent c now k s') as (s2 & -> & _) end; [|done].
      apply PyDictFacts.get_remove_eq.
Qed.

Lemma delitem_removes_one_witness :
  let c := bounded 2 in
  let s := exec_all c [OSet 1 "a" (listing_of 1); OSet 2 "b" (listing_of 2)] init in
  is_Some (PyDict.get "a" (_cache s)) ∧
  ∃ s', delitem "a" s = (Return (), s') ∧
        S (length (_cache s')) = length (_cache s) ∧
        (getitem c 3 "a" s').1 = Raise KeyError ∧
        _times s' = _times s ∧ _q s' = _q s.
Proof.
  intros c s.
  assert (is_Some (PyDict.get "a" (_cache s))) as Hs by (by eexists).
  split; [exact Hs|].
  exact (proj2 (delitem_removes_one c
                  [OSet 1 "a" (listing_of 1); OSet 2 "b" (listing_of 2)] "a" 3) Hs).
Defined.

(** X8. With caching on, a write on a state a new cache can reach stores
    one entry more when the path had none and keeps the count when it had
    one: the entry is replaced, also when the tracker had forgotten the
    path and the stale entry is popped first. *)
Theorem setitem_len (c : Config) (os : list op) (now : Z) (k : string) (v : Listing) :
  use_listings_cache c = true →
  let s := exec_all c os init in
  length (_cache (setitem c now k v s).2) =
    match PyDict.get k (_cache s) with
    | Some _ => length (_cache s)
    | None => S (length (_cache s))
    end.
Proof.
  intros Hu s. rewrite setitem_unfold by done. simpl.
  pose proof (reachable_keys_NoDup c os) as Hnd. fold s in Hnd.
  destruct (PyDict.get k (_cache s)) as [l|] eqn:Hget.
  - assert (k ∈ PyDict.keys (_cache s)) as Hin.
    { destruct (decide (k ∈ PyDict.keys (_cache s))) as [|Hout]; [done|].
      apply get_None_keys in Hout. congruence. }
    destruct (touched_cache c k s) as [-> | ->].
    + assert (length (PyDict.set k v (_cache s)).*1 = length (_cache s).*1) as Hlen
        by (f_equal; by apply keys_set_present).
      by rewrite !length_fmap in Hlen.
    + rewrite PyDictFacts.set_absent by apply PyDictFacts.get_remove_eq.
      rewrite length_app. simpl.
      pose proof (length_remove_present k (_cache s) Hnd Hin). lia.
  - rewrite touched_cache_absent by done.
    rewrite PyDictFacts.set_absent by done. rewrite length_app. simpl. lia.
Qed.

Lemma setitem_len_witness :
  let c := bounded 1 in
  let os := [OSet 1 "a" (listing_of 1); OSet 2 "b" (listing_of 2);
             OSet 3 "c" (listing_of 3)] in
  use_listings_cache c = true ∧
  length (_cache (setitem c 4 "a" (listing_of 9) (exec_all c os init)).2) = 3%nat.
Proof.
  intros c os. split; [reflexivity|].
  rewrite (setitem_len c os 4 "a" (listing_of 9)) by reflexivity. reflexivity.
Defined.

(** X9. Writes never purge other paths: with caching on, after writes of
    pairwise distinct paths to a new cache the store holds every one of
    them, in the order written, however small [max_paths] is. *)
Theorem distinct_writes_all_stored (c : Config) (now : Z)
    (kvs : list (string * Listing)) :
  use_listings_cache c = true →
  NoDup kvs.*1 →
  PyDict.keys (_cache (exec_all c (writes_of now kvs) init)) = kvs.*1 ∧
  (len (exec_all c (writes_of now kvs) init)).1 = Return (length kvs).
Proof.
  intros Hu Hnd.
  pose proof (writes_absent_keys c now kvs init Hu Hnd) as Hkeys.
  simpl in Hkeys. rewrite Hkeys by (intros; apply not_elem_of_nil).
  split; [done|]. unfold len. simpl. f_equal.
  apply (f_equal length) in Hkeys; [|intros; apply not_elem_of_nil].
  unfold PyDict.keys in Hkeys. by rewrite !length_fmap in Hkeys.
Qed.

Lemma distinct_writes_all_stored_witness :
  let c := bounded 1 in
  let kvs := [("a", listing_of 1); ("b", listing_of 2); ("c", listing_of 3);
              ("d", listing_of 4)] in
  use_listings_cache c = true ∧ NoDup kvs.*1 ∧
  PyDict.keys (_cache (exec_all c (writes_of 0 kvs) init)) = ["a"; "b"; "c"; "d"] ∧
  (len (exec_all c (writes_of 0 kvs) init)).1 = Return 4%nat.
Proof.
  intros c kvs.
  assert (NoDup kvs.*1) as Hnd
    by (apply (bool_decide_unpack _); vm_compute; exact I).
  split_and!; [reflexivity | exact Hnd | |].
  - apply (distinct_writes_all_stored c 0 kvs); [reflexivity | exact Hnd].
  - apply (distinct_writes_all_stored c 0 kvs); [reflexivity | exact Hnd].
Defined.

(** X10. Iteration never raises, and what [list(d)] produces is a sublist
    of the keys of the store in store order, so [len(d)] bounds its
    length from above: [len] also counts the entries that are expired or
    out of the tracker. *)
Theorem iterate_within_len (c : Config) (now : Z) (s : State) :
  ∃ ks s', iterate c now s = (Return ks, s') ∧
           sublist ks (PyDict.keys (_cache s)) ∧
           (length ks ≤ length (_cache s))%nat.
Proof.
  unfold iterate, iter, mbind, prog_mbind, prog_bind.
  pose proof (drain_sublist c now (PyDict.keys (_cache s)) s) as Hsub.
  destruct (drain_total c now (PyDict.keys (_cache s)) s) as (ks & s' & Hd).
  rewrite Hd in *. simpl in Hsub. exists ks, s'. split_and!; [done..|].
  apply sublist_length in Hsub. unfold PyDict.keys in Hsub.
  by rewrite length_fmap in Hsub.
Qed.

(** X11. Pickling keeps the options and drops the contents: the cache
    rebuilt from [__reduce__] has the configuration of the original and is
    empty, so every read of it raises [KeyError] whatever the original
    held. *)
Theorem pickle_round_trip (c : Config) (s : State) (now : Z) (k : string) :
  rebuild (__reduce__ c s) = (c, init) ∧
  (getitem (rebuild (__reduce__ c s)).1 now k (rebuild (__reduce__ c s)).2).1
    = Raise KeyError.
Proof.
  assert (rebuild (__reduce__ c s) = (c, init)) as -> by by destruct c.
  split; [done|]. simpl.
  by destruct (getitem_absent c now k init eq_refl) as (s' & -> & _).
Qed.

(** With a bound of 0 the tracker is never made and never called: every
    method that looks at the options does what it does under
    [max_paths = None], outcome and state. *)
Lemma zero_bound_methods (c : Config) :
  max_paths c = Some 0 →
  (∀ now k s, getitem c now k s = getitem (unbounded c) now k s) ∧
  (∀ now k v s, setitem c now k v s = setitem (unbounded c) now k v s) ∧
  (∀ now k s, contains c now k s = contains (unbounded c) now k s) ∧
  (∀ now g s, next c now g s = next (unbounded c) now g s) ∧
  (∀ now g s, drain c now g s = drain (unbounded c) now g s).
Proof.
  intros Hm.
  assert (∀ now k s, getitem c now k s = getitem (unbounded c) now k s) as Hget.
  { intros. unfold getitem, unbounded. simpl. by rewrite Hm. }
  assert (∀ now k s, contains c now k s = contains (unbounded c) now k s) as Hcon.
  { intros. unfold contains. by rewrite Hget. }
  split_and!; [done | | done | |].
  - intros. unfold setitem, unbounded. simpl. by rewrite Hm.
  - intros now g. induction g as [|k g IH]; intros s; [done|].
    simpl. unfold mbind, prog_mbind, prog_bind. rewrite Hcon.
    destruct (contains (unbounded c) now k s) as [[[]|e] s']; by rewrite ?IH.
  - intros now g. induction g as [|k g IH]; intros s; [done|].
    simpl. unfold mbind, prog_mbind, prog_bind. rewrite Hcon.
    destruct (contains (unbounded c) now k s) as [[b|e] s']; by rewrite ?IH.
Qed.

(** X18. The edges of [max_paths]. A bound of 0 is no bound: the cache
    then behaves, operation by operation, as one built with
    [max_paths = None]: every read, write, membership test, generator
    step and iteration has the same outcome and leaves the same state,
    and so does every run of operations. A negative bound makes the
    tracker an [lru_cache] of size 0, which forgets at once: in every
    state the cache can reach, every read raises [KeyError] (and purges
    the path), whatever was written. *)
Theorem max_paths_edges (c : Config) (os : list op) (now : Z) (k : string) :
  (max_paths c = Some 0 →
   (∀ t p s, getitem c t p s = getitem (unbounded c) t p s) ∧
   (∀ t p v s, setitem c t p v s = setitem (unbounded c) t p v s) ∧
   (∀ t p s, contains c t p s = contains (unbounded c) t p s) ∧
   (∀ t g s, next c t g s = next (unbounded c) t g s) ∧
   (∀ t s, iterate c t s = iterate (unbounded c) t s) ∧
   (∀ o s, exec c o s = exec (unbounded c) o s) ∧
   exec_all c os init = exec_all (unbounded c) os init) ∧
  (∀ n, max_paths c = Some n → n < 0 →
        (getitem c now k (exec_all c os init)).1 = Raise KeyError ∧
        PyDict.get k (_cache (getitem c now k (exec_all c os init)).2) = None).
Proof.
  split.
  - intros Hm.
    destruct (zero_bound_methods c Hm) as (Hget & Hset & Hcon & Hnext & Hdrain).
    assert (∀ o s, exec c o s = exec (unbounded c) o s) as Hexec.
    { intros o s. destruct o as [t k0|t k0 v|k0|t k0| |]; simpl; try done.
      - by rewrite Hget.
      - by rewrite Hset.
      - by rewrite Hcon. }
    split_and!; try done.
    + intros t s. unfold iterate, mbind, prog_mbind, prog_bind.
      destruct (iter s) as [[g|e] s']; [apply Hdrain | done].
    + generalize init. induction os as [|o os IH]; intros s; [done|].
      change (exec_all c (o :: os) s) with (exec_all c os (exec c o s)).
      change (exec_all (unbounded c) (o :: os) s)
        with (exec_all (unbounded c) os (exec (unbounded c) o s)).
      by rewrite IH, Hexec.
  - intros n Hn Hneg.
    assert (tracker_ok c (_q (exec_all c os init))) as [_ Hlen].
    { apply (run_invariant c (λ s, tracker_ok c (_q s))).
      - intros. by apply exec_tracker_ok.
      - split; [apply NoDup_nil_2 | simpl; lia]. }
    unfold maxsize in Hlen. rewrite Hn in Hlen.
    replace (Z.to_nat (n + 1)) with 0%nat in Hlen by lia.
    assert (_q (exec_all c os init) = []) as Hq
      by (destruct (_q (exec_all c os init)); [done | simpl in Hlen; lia]).
    set (s := exec_all c os init) in *.
    assert (truthy (max_paths c) = true) as Htr.
    { rewrite Hn. simpl. apply negb_true_iff, Z.eqb_neq. lia. }
    assert (k ∉ _q s) as Hout by (rewrite Hq; apply not_elem_of_nil).
    destruct (expired c now k s) eqn:Hexp.
    + by destruct (getitem_expired c now k s Hexp) as (s' & -> & Hnone & _).
    + rewrite getitem_unfold, Hexp. unfold cache_lookup.
      rewrite touched_cache_miss, PyDictFacts.get_remove_eq by done. simpl.
      split; [done|]. rewrite touched_cache_miss by done.
      apply PyDictFacts.get_remove_eq.
Qed.

Lemma max_paths_edges_witness :
  let c := bounded (-1) in
  let os := [OSet 1 "a" (listing_of 1)] in
  (max_paths c = Some (-1) ∧ -1 < 0 ∧
   (getitem c 1 "a" (exec_all c os init)).1 = Raise KeyError ∧
   PyDict.get "a" (_cache (getitem c 1 "a" (exec_all c os init)).2) = None) ∧
  (max_paths (bounded 0) = Some 0 ∧
   (∀ t p s, getitem (bounded 0) t p s = getitem (unbounded (bounded 0)) t p s) ∧
   exec_all (bounded 0) os init = exec_all (unbounded (bounded 0)) os init).
Proof.
  intros c os. split.
  - split; [reflexivity|]. split; [lia|].
    apply (proj2 (max_paths_edges c os 1 "a") (-1)); [reflexivity | lia].
  - split; [reflexivity|].
    destruct (proj1 (max_paths_edges (bounded 0) os 1 "a") eq_refl)
      as (Hget & _ & _ & _ & _ & _ & Hrun).
    by split.
Defined.

Lemma move_to_front_Permutation (k : string) (l : list string) :
  NoDup l → k ∈ l → k :: filter (λ x, x ≠ k) l ≡ₚ l.
Proof.
  induction 1 as [|x l Hx Hnd IH]; intros Hin.
  - by apply elem_of_nil in Hin.
  - destruct (decide (x = k)) as [->|Hne].
    + rewrite filter_cons_False by (intros H; by apply H).
      f_equiv. clear IH Hin. induction l as [|y l IHl]; [done|].
      apply not_elem_of_cons in Hx as [Hy Hx]. apply NoDup_cons in Hnd as [_ Hnd].
      rewrite filter_cons_True by done. f_equiv. by apply IHl.
    + rewrite filter_cons_True by done.
      apply elem_of_cons in Hin as [Heq|Hin]; [congruence|].
      rewrite Permutation_swap. f_equiv. by apply IH.
Qed.

(** X19. A read that returns never pushes a path out of the recency
    window: in a state a new cache can reach, when a read returns a
    listing the tracker afterwards holds the same paths as before, with
    the path read moved to the front. *)
Theorem successful_read_keeps_window (c : Config) (os : list op) (now : Z)
    (k : string) (l : Listing) (s' : State) :
  getitem c now k (exec_all c os init) = (Return l, s') →
  _q s' ≡ₚ _q (exec_all c os init) ∧
  (truthy (max_paths c) = true → ∃ r, _q s' = k :: r).
Proof.
  intros Hget. apply getitem_Return_inv in Hget as (_ & _ & Hq & -> & _ & _).
  assert (NoDup (_q (exec_all c os init))) as Hnd.
  { apply (run_invariant c (λ s, tracker_ok c (_q s))).
    - intros. by apply exec_tracker_ok.
    - split; [apply NoDup_nil_2 | simpl; lia]. }
  rewrite touched_tracker. destruct (truthy (max_paths c)); [|by split].
  unfold q_track. rewrite decide_True by auto. split.
  - apply move_to_front_Permutation; auto.
  - eauto.
Qed.

Lemma successful_read_keeps_window_witness :
  let c := bounded 2 in
  let os := [OSet 1 "a" (listing_of 1); OSet 2 "b" (listing_of 2);
             OSet 3 "c" (listing_of 3)] in
  let s' := (getitem c 4 "a" (exec_all c os init)).2 in
  getitem c 4 "a" (exec_all c os init) = (Return (listing_of 1), s') ∧
  _q s' ≡ₚ _q (exec_all c os init) ∧ _q s' = ["a"; "c"; "b"].
Proof.
  intros c os s'.
  assert (getitem c 4 "a" (exec_all c os init) = (Return (listing_of 1), s'))
    as Hget by reflexivity.
  split; [exact Hget|]. split; [|reflexivity].
  exact (proj1 (successful_read_keeps_window c os 4 "a" (listing_of 1) s' Hget)).
Defined.

(** X20. A read outside the recency window is destructive: under a
    capacity bound, a read of a path that the tracker does not hold raises
    [KeyError] whether or not a listing is stored for it, and after the
    read none is. *)
Theorem untracked_read_purges (c : Config) (now : Z) (k : string) (s : State) :
  truthy (max_paths c) = true →
  k ∉ _q s →
  ∃ s', getitem c now k s = (Raise KeyError, s') ∧
        PyDict.get k (_cache s') = None ∧
        ∀ k', k' ≠ k → PyDict.get k' (_cache s') = PyDict.get k' (_cache s).
Proof.
  intros Htr Hout.
  assert (∀ k', k' ≠ k →
            PyDict.get k' (_cache (getitem c now k s).2) = PyDict.get k' (_cache s))
    as Hframe.
  { intros k' Hne. apply (exec_frame c (OGet now k) k k' s); [|done].
    simpl. by apply bool_decide_eq_true. }
  destruct (expired c now k s) eqn:Hexp.
  - destruct (getitem_expired c now k s Hexp) as (s' & Hget & Hnone & _).
    rewrite Hget in Hframe. by exists s'.
  - revert Hframe. rewrite getitem_unfold, Hexp. unfold cache_lookup.
    rewrite touched_cache_miss, PyDictFacts.get_remove_eq by done. simpl.
    intros Hframe. eexists. split; [reflexivity|]. split; [|done].
    rewrite touched_cache_miss by done. apply PyDictFacts.get_remove_eq.
Qed.

Lemma untracked_read_purges_witness :
  truthy (max_paths (bounded 2)) = true ∧
  ("p1" ∉ _q four_writes) ∧
  PyDict.get "p1" (_cache four_writes) = Some (listing_of 1) ∧
  ∃ s', getitem (bounded 2) 9 "p1" four_writes = (Raise KeyError, s') ∧
        PyDict.get "p1" (_cache s') = None ∧
        ∀ k', k' ≠ "p1" →
              PyDict.get k' (_cache s') = PyDict.get k' (_cache four_writes).
Proof.
  assert ("p1" ∉ _q four_writes) as Hout
    by (apply (bool_decide_unpack _); vm_compute; exact I).
  split_and!; [reflexivity | exact Hout | reflexivity |].
  exact (untracked_read_purges (bounded 2) 9 "p1" four_writes eq_refl Hout).
Defined.

End DirCacheMore.

(** ** More on the transaction: failures inside a block, retries *)

Module TransactionMore.
Import Transaction TransactionFacts.

(** The exception a block's body ended with, if any: what [__exit__]
    receives as [exc_type]. *)
Definition raised {A} (r : outcome exn A) : option exn :=
  match r with
  | Return _ => None
  | Raise e => Some e
  end.

Section More.
Variable fails : action → handle → bool.

Lemma exit_sweep_fail exc pre h post w :
  files w = pre ++ h :: post →
  (∀ x, x ∈ pre → fails (act (bool_decide (exc = None))) x = false) →
  fails (act (bool_decide (exc = None))) h = true →
  __exit__ fails exc w =
    (Raise (HandleError (act (bool_decide (exc = None))) h),
     logged (map (pair (act (bool_decide (exc = None)))) (pre ++ [h])) w).
Proof.
  intros Hf Hok Hfail. unfold __exit__, mbind, prog_mbind, prog_bind.
  rewrite complete_unfold, Hf. by rewrite sweep_fail.
Qed.

Lemma complete_ok commit w :
  (∀ h, h ∈ files w → fails (act commit) h = false) →
  complete fails commit w =
    (Return (),
     {| files := []; _intrans := false; _transaction := _transaction w;
        calls := calls w ++ map (pair (act commit)) (files w) |}).
Proof. intros Hok. rewrite complete_unfold. by rewrite sweep_ok. Qed.

Lemma complete_fail commit pre h post w :
  files w = pre ++ h :: post →
  (∀ x, x ∈ pre → fails (act commit) x = false) →
  fails (act commit) h = true →
  complete fails commit w =
    (Raise (HandleError (act commit) h),
     logged (map (pair (act commit)) (pre ++ [h])) w).
Proof.
  intros Hf Hok Hfail. rewrite complete_unfold, Hf. by rewrite sweep_fail.
Qed.

End More.

(** X12. A [with] block whose finalization fails. When the body leaves
    the files [pre ++ h :: post] registered and the finalizer of [h] is
    the first to raise, the block raises that finalizer's exception, also
    when the body itself had raised (the body's exception is lost);
    the files up to [h] have had their call and the later ones none; and
    the rest of [__exit__] is skipped: the file list, the in-transaction
    mark set by [__enter__] and the filesystem's [_transaction] are as the
    body left them. *)
Theorem with_block_failure (fails : action → handle → bool) (body : M unit)
    (w w1 : World) (rb : outcome exn unit) (pre post : list handle) (h : handle) :
  let a := act (bool_decide (raised rb = None)) in
  body (__enter__ w).2 = (rb, w1) →
  files w1 = pre ++ h :: post →
  (∀ x, x ∈ pre → fails a x = false) →
  fails a h = true →
  ∃ w', with_ fails body w = (Raise (HandleError a h), w') ∧
        calls w' = calls w1 ++ map (pair a) (pre ++ [h]) ∧
        files w' = files w1 ∧ _intrans w' = _intrans w1 ∧
        _transaction w' = _transaction w1.
Proof.
  intros a Hbody Hf Hok Hfail. unfold with_.
  assert (__enter__ w = (Return (), (__enter__ w).2)) as -> by done.
  rewrite Hbody. destruct rb as [[]|e]; simpl in *.
  - rewrite (exit_sweep_fail fails None pre h post) by done. by eexists.
  - rewrite (exit_sweep_fail fails (Some e) pre h post) by done. by eexists.
Qed.

Lemma with_block_failure_witness :
  let body := block [1; 2; 3]%nat (Some (BlockError 0)) in
  let w1 := (body (__enter__ idle).2).2 in
  let a := act (bool_decide (raised (Raise (BlockError 0) : outcome exn unit) = None)) in
  body (__enter__ idle).2 = (Raise (BlockError 0), w1) ∧
  files w1 = [1%nat] ++ 2%nat :: [3%nat] ∧
  (∀ x, x ∈ [1%nat] → fails_on 2%nat a x = false) ∧
  fails_on 2%nat a 2%nat = true ∧
  ∃ w', with_ (fails_on 2%nat) body idle = (Raise (HandleError Discard 2%nat), w') ∧
        calls w' = [(Discard, 1); (Discard, 2)]%nat ∧
        files w' = [1; 2; 3]%nat ∧ _intrans w' = true ∧
        _transaction w' = Some 0%nat.
Proof.
  intros body w1 a.
  assert (∀ x, x ∈ [1%nat] → fails_on 2%nat a x = false) as Hpre.
  { intros x Hx. apply list_elem_of_singleton in Hx as ->. reflexivity. }
  split_and!; [reflexivity | reflexivity | exact Hpre | reflexivity |].
  exact (with_block_failure (fails_on 2%nat) body idle w1 (Raise (BlockError 0))
           [1%nat] [3%nat] 2%nat eq_refl eq_refl Hpre eq_refl).
Defined.

(** X13. A failed [complete] does not forget what it has done: when it is
    called again (without a [start()] in between) and this time no
    finalizer raises, it sweeps the whole list again, so the files before
    the one that had failed, and that file, get their call a second time;
    then the list is cleared and the in-transaction mark dropped. *)
Theorem retry_repeats_calls (fails1 fails2 : action → handle → bool)
    (commit : bool) (w : World) (pre post : list handle) (h : handle) :
  files w = pre ++ h :: post →
  (∀ x, x ∈ pre → fails1 (act commit) x = false) →
  fails1 (act commit) h = true →
  (∀ x, x ∈ files w → fails2 (act commit) x = false) →
  ∃ e w1 w2,
    complete fails1 commit w = (Raise e, w1) ∧
    complete fails2 commit w1 = (Return (), w2) ∧
    calls w2 = calls w ++ map (pair (act commit)) (pre ++ [h])
                       ++ map (pair (act commit)) (pre ++ h :: post) ∧
    files w2 = [] ∧ _intrans w2 = false.
Proof.
  intros Hf Hok Hfail Hok2.
  rewrite (complete_fail fails1 commit pre h post) by done.
  do 3 eexists. split; [reflexivity|].
  rewrite complete_ok by done. simpl. rewrite Hf.
  split; [reflexivity|]. simpl. by rewrite <- app_assoc.
Qed.

Lemma retry_repeats_calls_witness :
  let w := {| files := [1; 2; 3]%nat; _intrans := true;
              _transaction := Some 0%nat; calls := [] |} in
  files w = [1%nat] ++ 2%nat :: [3%nat] ∧
  (∀ x, x ∈ [1%nat] → fails_on 2%nat (act true) x = false) ∧
  fails_on 2%nat (act true) 2%nat = true ∧
  (∀ x, x ∈ files w → never_fails (act true) x = false) ∧
  ∃ e w1 w2,
    complete (fails_on 2%nat) true w = (Raise e, w1) ∧
    complete never_fails true w1 = (Return (), w2) ∧
    calls w2 = [(Commit, 1); (Commit, 2); (Commit, 1); (Commit, 2); (Commit, 3)]%nat ∧
    files w2 = [] ∧ _intrans w2 = false.
Proof.
  intros w.
  assert (∀ x, x ∈ [1%nat] → fails_on 2%nat (act true) x = false) as Hpre.
  { intros x Hx. apply list_elem_of_singleton in Hx as ->. reflexivity. }
  split_and!; [reflexivity | exact Hpre | reflexivity | done |].
  exact (retry_repeats_calls (fails_on 2%nat) never_fails true w [1%nat] [3%nat] 2%nat
           eq_refl Hpre eq_refl (λ _ _, eq_refl)).
Defined.

(** X14. After a [complete] in which no finalizer raised, the transaction
    holds nothing: a second [complete], with either flag and whatever the
    files would do, makes no call, returns, and leaves the state as it
    is. *)
Theorem complete_twice (fails fails' : action → handle → bool)
    (commit commit' : bool) (w : World) :
  (∀ h, h ∈ files w → fails (act commit) h = false) →
  ∃ w1, complete fails commit w = (Return (), w1) ∧
        complete fails' commit' w1 = (Return (), w1).
Proof.
  intros Hok. rewrite complete_ok by done. eexists. split; [reflexivity|].
  by rewrite complete_unfold.
Qed.

Lemma complete_twice_witness :
  let w := {| files := [1; 2]%nat; _intrans := true;
              _transaction := Some 0%nat; calls := [] |} in
  (∀ h, h ∈ files w → never_fails (act true) h = false) ∧
  ∃ w1, complete never_fails true w = (Return (), w1) ∧
        complete (fails_on 1%nat) false w1 = (Return (), w1).
Proof.
  intros w. split; [done|].
  exact (complete_twice never_fails (fails_on 1%nat) true false w (λ _ _, eq_refl)).
Defined.

End TransactionMore.

(** ** More on the Dask variant: the actor on its own, failures *)

Module DaskMore.
Import Transaction DaskTransaction DaskFacts.

Section More.
Variable fails : action → handle → bool.

Lemma remote_sweep_fail a pre h post fs evs k :
  (∀ x, x ∈ pre → fails a x = false) →
  fails a h = true →
  for_each (remote_call fails a) (pre ++ h :: post) (actor_state fs evs k) =
    (Raise (HandleError a h), actor_state fs (evs ++ map (pair a) (pre ++ [h])) k).
Proof.
  revert evs. induction pre as [|x pre IH]; intros evs Hok Hfail; simpl.
  - unfold mbind, prog_mbind, prog_bind, remote_call at 1. rewrite Hfail.
    cbn [actor_files remote_calls inbox results next_future pace actor_state].
    by rewrite <- app_assoc.
  - unfold mbind, prog_mbind, prog_bind, remote_call at 1.
    rewrite Hok by apply list_elem_of_here.
    cbn [actor_files remote_calls inbox results next_future pace actor_state].
    replace ((remote_calls k ++ evs) ++ [(a, x)])
      with (remote_calls k ++ (evs ++ [(a, x)])) by by rewrite app_assoc.
    fold (actor_state fs (evs ++ [(a, x)]) k).
    rewrite IH by (try done; intros; by apply Hok, list_elem_of_further).
    by rewrite <- app_assoc.
Qed.

Lemma run_finalize_fail commit pre h post k :
  actor_files k = pre ++ h :: post →
  (∀ x, x ∈ pre → fails (act commit) x = false) →
  fails (act commit) h = true →
  run_method fails (method_of commit) k =
    (Raise (HandleError (act commit) h),
     actor_state (actor_files k) (map (pair (act commit)) (pre ++ [h])) k).
Proof.
  intros Hf Hok Hfail.
  assert (run_method fails (method_of commit) k =
          (fs ← get_actor_files;
           for_each (remote_call fails (act commit)) fs ;; set_actor_files []) k)
    as -> by by destruct commit.
  pose proof (remote_sweep_fail (act commit) pre h post (actor_files k) [] k Hok Hfail)
    as Hsweep.
  rewrite actor_state_id in Hsweep.
  unfold get_actor_files, set_actor_files, mbind, prog_mbind, prog_bind.
  simpl. rewrite Hf at 1. by rewrite Hsweep.
Qed.

Lemma appends_run fs k :
  for_each (E:=exn) actor_append fs k =
    (Return (), actor_state (actor_files k ++ fs) [] k).
Proof.
  revert k. induction fs as [|f fs IH]; intros k; simpl.
  - by rewrite app_nil_r, actor_state_id.
  - unfold mbind, prog_mbind, prog_bind.
    change (actor_append f k) with (run_method fails (MAppend f) k).
    rewrite run_append, IH. unfold actor_state. simpl.
    by rewrite !app_nil_r, <- app_assoc.
Qed.

Lemma settled_appends_then_fail commit i (ps : list (nat * handle)) pre h post k :
  inbox k = map (λ p, (p.1, MAppend p.2)) ps ++ [(i, method_of commit)] →
  actor_files k ++ ps.*2 = pre ++ h :: post →
  (∀ x, x ∈ pre → fails (act commit) x = false) →
  fails (act commit) h = true →
  actor_files (settled fails k) = pre ++ h :: post ∧
  remote_calls (settled fails k) =
    remote_calls k ++ map (pair (act commit)) (pre ++ [h]) ∧
  inbox (settled fails k) = [] ∧
  results (settled fails k) !! i = Some (Raise (HandleError (act commit) h)).
Proof.
  revert k. induction ps as [|[j f] ps IH]; intros k Hk Hf Hok Hfail.
  - unfold settled. rewrite Hk. simpl in *. unfold worker_step. rewrite Hk.
    rewrite app_nil_r in Hf.
    rewrite (run_finalize_fail commit pre h post) by done. simpl.
    split_and!; [done..|]. apply lookup_insert_eq.
  - rewrite <- settled_step.
    assert (worker_step fails k =
            {| actor_files := actor_files k ++ [f]; remote_calls := remote_calls k;
               inbox := map (λ p, (p.1, MAppend p.2)) ps ++ [(i, method_of commit)];
               results := <[j := Return ()]> (results k);
               next_future := next_future k; pace := pace k |}) as ->.
    { unfold worker_step. rewrite Hk. cbn [map app fst snd].
      rewrite run_append. simpl. by rewrite app_nil_r. }
    match goal with |- context [settled fails ?k'] =>
      destruct (IH k') as (Hfs & Hc & Hi & Hr) end; try done.
    simpl. rewrite <- app_assoc. exact Hf.
Qed.

End More.

(** X15. [FileActor] on its own. Files appended to the actor are added
    at the end of its list, with no call on any file. If no finalizer
    raises, [commit()] (or [discard()]) then calls each file of the list
    once, in the order appended, and empties the list; a further
    [commit()] or [discard()] makes no call and changes nothing. *)
Theorem actor_append_then_finalize (fails : action → handle → bool)
    (commit commit' : bool) (fs : list handle) (k : Worker) :
  (∀ h, h ∈ actor_files k ++ fs → fails (act commit) h = false) →
  ∃ k0 k1,
    for_each actor_append fs k = (Return (), k0) ∧
    actor_files k0 = actor_files k ++ fs ∧ remote_calls k0 = remote_calls k ∧
    run_method fails (method_of commit) k0 = (Return (), k1) ∧
    remote_calls k1 =
      remote_calls k ++ map (pair (act commit)) (actor_files k ++ fs) ∧
    actor_files k1 = [] ∧
    run_method fails (method_of commit') k1 = (Return (), k1).
Proof.
  intros Hok. rewrite (appends_run fails).
  set (k0 := actor_state (actor_files k ++ fs) [] k).
  assert (∀ h, h ∈ actor_files k0 → fails (act commit) h = false) as Hok0 by done.
  exists k0, (actor_state [] (map (pair (act commit)) (actor_files k0)) k0).
  split_and!; try done.
  - simpl. apply app_nil_r.
  - by apply run_finalize.
  - simpl. by rewrite app_nil_r.
  - rewrite run_finalize
      by (simpl; intros x Hx; by apply elem_of_nil in Hx).
    unfold actor_state. simpl. by rewrite !app_nil_r.
Qed.

Lemma actor_append_then_finalize_witness :
  let k := worker (two_files []) in
  (∀ h, h ∈ actor_files k ++ [8; 9]%nat →
        TransactionFacts.never_fails (act false) h = false) ∧
  ∃ k0 k1,
    for_each actor_append [8; 9]%nat k = (Return (), k0) ∧
    actor_files k0 = [7; 8; 9]%nat ∧
    run_method TransactionFacts.never_fails (method_of false) k0 = (Return (), k1) ∧
    remote_calls k1 = [(Discard, 7); (Discard, 8); (Discard, 9)]%nat ∧
    actor_files k1 = [] ∧
    run_method TransactionFacts.never_fails (method_of true) k1 = (Return (), k1).
Proof.
  intros k. split; [done|].
  destruct (actor_append_then_finalize TransactionFacts.never_fails false true
              [8; 9]%nat k (λ _ _, eq_refl))
    as (k0 & k1 & ? & ? & _ & ? & ? & ? & ?).
  exists k0, k1. by split_and!.
Defined.

(** X16. A remote finalizer that raises. With [self.files] the actor
    handle and only appends queued, when the finalizer of [h] is the first
    of the actor's files to raise, [complete] waits for the call, then
    raises that exception: the actor's files up to [h] have had their
    call, the later ones none; the actor keeps its whole list; and the
    filesystem's in-transaction mark is left as it was. *)
Theorem remote_complete_failure (fails : action → handle → bool) (commit : bool)
    (w : World) (ps : list (nat * handle)) (pre post : list handle) (h : handle) :
  files w = Actor →
  inbox (worker w) = map (λ p, (p.1, MAppend p.2)) ps →
  actor_files (worker w) ++ ps.*2 = pre ++ h :: post →
  (∀ x, x ∈ pre → fails (act commit) x = false) →
  fails (act commit) h = true →
  ∃ w', complete fails commit w = (Raise (HandleError (act commit) h), w') ∧
        remote_calls (worker w') =
          remote_calls (worker w) ++ map (pair (act commit)) (pre ++ [h]) ∧
        actor_files (worker w') = pre ++ h :: post ∧
        inbox (worker w') = [] ∧
        _intrans w' = _intrans w.
Proof.
  intros Hf Hin Hfiles Hok Hfail.
  destruct (settled_appends_then_fail fails commit (next_future (worker w)) ps
              pre h post (queued (method_of commit) (worker w)))
    as (Hfs & Hcalls & Hinbox & Hres); [simpl; by rewrite Hin | done..|].
  assert (complete fails commit w =
          ((fut ← files_call fails (method_of commit); result fails fut) ;;
           set_intrans false) w) as -> by by destruct commit.
  unfold mbind at 1, prog_mbind at 1, prog_bind at 1.
  rewrite invoke_result, Hres by done.
  eexists. split; [reflexivity|]. done.
Qed.

Lemma remote_complete_failure_witness :
  let w := two_files [1%nat] in
  let fails := TransactionFacts.fails_on 8%nat in
  files w = Actor ∧
  inbox (worker w) = map (λ p, (p.1, MAppend p.2)) [(0%nat, 8%nat)] ∧
  actor_files (worker w) ++ [(0%nat, 8%nat)].*2 = [7%nat] ++ 8%nat :: [] ∧
  (∀ x, x ∈ [7%nat] → fails (act true) x = false) ∧
  fails (act true) 8%nat = true ∧
  ∃ w', complete fails true w = (Raise (HandleError Commit 8%nat), w') ∧
        remote_calls (worker w') = [(Commit, 7); (Commit, 8)]%nat ∧
        actor_files (worker w') = [7; 8]%nat ∧
        inbox (worker w') = [] ∧
        _intrans w' = true.
Proof.
  intros w fails.
  assert (∀ x, x ∈ [7%nat] → fails (act true) x = false) as Hpre.
  { intros x Hx. apply list_elem_of_singleton in Hx as ->. reflexivity. }
  split_and!; [reflexivity | reflexivity | reflexivity | exact Hpre | reflexivity |].
  exact (remote_complete_failure fails true w [(0%nat, 8%nat)] [7%nat] [] 8%nat
           eq_refl eq_refl eq_refl Hpre eq_refl).
Defined.

(** X17. The inherited [start()] replaces the actor handle by a plain
    list, so in the Dask variant a [complete] that follows a [start()]
    raises [AttributeError], whatever the state before: no call reaches
    the actor, the worker is untouched and the filesystem stays marked as
    in a transaction. *)
Theorem dask_start_then_complete (fails : action → handle → bool) (commit : bool)
    (w : World) :
  ∃ w1, start w = (Return (), w1) ∧
        files w1 = LocalList [] ∧ _intrans w1 = true ∧
        complete fails commit w1 = (Raise AttributeError, w1) ∧
        worker w1 = worker w.
Proof. eexists. split; [reflexivity|]. by destruct commit. Qed.

End DaskMore.

(** ** transaction.py: the Dask variant used as a [with] block *)

Module DaskScoped.
Import Transaction DaskTransaction.

(** The [DaskTransaction], its worker, and the filesystem attribute
    [_transaction] that the inherited [__exit__] writes. *)
Record Fs : Type := {
  tx : World;
  _transaction : option nat
}.

Definition S (A : Type) : Type := prog Fs exn A.

(** A method of the transaction, run on the transaction part of the state. *)
Definition on_tx {A} (m : M A) : S A := λ f,
  let (r, w) := m (tx f) in (r, {| tx := w; _transaction := _transaction f |}).

Definition set_transaction (t : option nat) : S unit := λ f,
  (Return (), {| tx := tx f; _transaction := t |}).

(** [DaskTransaction.__init__]: [self.files] is the handle of a new
    [FileActor]; [pace] is how the worker will get on. *)
Definition __init__ (intrans : bool) (t : option nat) (pace : list nat) : Fs :=
  {| tx := {| files := Actor; _intrans := intrans;
              worker := {| actor_files := []; remote_calls := []; inbox := [];
                           results := ∅; next_future := 0%nat; pace := pace |} |};
     _transaction := t |}.

(** [Transaction.__enter__], inherited: it calls the inherited [start]. *)
Definition __enter__ : S unit := on_tx start.

Section WithHandles.
Variable fails : action → handle → bool.

(** Modelled from the spec: registering a file is [self.files.append(f)],
    done by file-opening code that is not part of transaction.py. On a
    list it appends; on the actor handle it is an actor call whose future
    nobody waits for. *)
Definition register (f : handle) : S unit := λ s,
  match files (tx s) with
  | LocalList l => on_tx (set_files (LocalList (l ++ [f]))) s
  | Actor => on_tx (λ w, let (_, w') := invoke fails (MAppend f) w in
                         (Return (), w')) s
  end.

(** [Transaction.__exit__], inherited; [self.complete] is the method of
    [DaskTransaction]. *)
Definition __exit__ (exc_type : option exn) : S unit :=
  on_tx (complete fails (bool_decide (exc_type = None))) ;;
  on_tx (set_intrans false) ;;
  set_transaction None.

(** [with transaction: body] *)
Definition with_ (body : S unit) : S unit := λ s,
  match __enter__ s with
  | (Raise e, s0) => (Raise e, s0)
  | (Return _, s0) =>
      match body s0 with
      | (Return _, s1) => __exit__ None s1
      | (Raise e, s1) =>
          match __exit__ (Some e) s1 with
          | (Return _, s2) => (Raise e, s2)
          | (Raise e', s2) => (Raise e', s2)
          end
      end
  end.

(** A block that opens the files [hs], registering each, and then ends
    normally or raises. *)
Definition block (hs : list handle) (exc : option exn) : S unit :=
  for_each register hs ;;
  match exc with
  | Some e => raise e
  | None => mret ()
  end.

End WithHandles.

End DaskScoped.

(** ** The Dask variant as a [with] block: what happens *)

Module DaskScopedFacts.
Import Transaction DaskTransaction DaskScoped.

Section Facts.
Variable fails : action → handle → bool.

Lemma complete_on_list commit l w :
  files w = LocalList l →
  complete fails commit w = (Raise AttributeError, w).
Proof.
  intros Hl. destruct commit;
    cbv [complete mbind prog_mbind prog_bind files_call]; by rewrite Hl.
Qed.

Lemma exit_on_list exc l s :
  files (tx s) = LocalList l →
  __exit__ fails exc s = (Raise AttributeError, s).
Proof.
  intros Hl. unfold __exit__, mbind, prog_mbind, prog_bind, on_tx.
  rewrite (complete_on_list _ l) by done. by destruct s.
Qed.

Lemma registers_on_list hs l s :
  files (tx s) = LocalList l →
  for_each (register fails) hs s =
    (Return (),
     {| tx := {| files := LocalList (l ++ hs); _intrans := _intrans (tx s);
                 worker := worker (tx s) |};
        _transaction := _transaction s |}).
Proof.
  revert l s. induction hs as [|h hs IH]; intros l s Hl; simpl.
  - rewrite app_nil_r, <- Hl. by destruct s as [[] ?].
  - unfold mbind, prog_mbind, prog_bind, register at 1. rewrite Hl.
    unfold on_tx, set_files. simpl.
    rewrite (IH (l ++ [h])) by done. simpl. by rewrite <- app_assoc.
Qed.

End Facts.

(** C9 (what the code does). A [DaskTransaction] that has been started
    never reaches its remote collector. [__enter__] calls the inherited
    [start()], which puts an empty list where [__init__] had put the
    actor handle. Files registered inside the block go to that list. At
    the end of the block, however it ends, [complete] finds a list, which
    has neither [commit] nor [discard]: the block raises
    [AttributeError] (in place of the body's exception, if it had one),
    no call is made on the actor or on any registered file, and the
    filesystem is left marked as in a transaction, with [_transaction]
    untouched. The same holds for any body that leaves a list in
    [self.files]. *)
Theorem dask_block_never_reaches_collector (fails : action → handle → bool)
    (s : Fs) :
  (∃ s0, __enter__ s = (Return (), s0) ∧
         files (tx s0) = LocalList [] ∧ _intrans (tx s0) = true ∧
         worker (tx s0) = worker (tx s)) ∧
  (∀ hs exc, ∃ s',
     with_ fails (block fails hs exc) s = (Raise AttributeError, s') ∧
     files (tx s') = LocalList hs ∧ _intrans (tx s') = true ∧
     worker (tx s') = worker (tx s) ∧ _transaction s' = _transaction s) ∧
  (∀ body rb s1 l,
     body (__enter__ s).2 = (rb, s1) → files (tx s1) = LocalList l →
     with_ fails body s = (Raise AttributeError, s1)).
Proof.
  assert (∀ body rb s1 l,
            body (__enter__ s).2 = (rb, s1) → files (tx s1) = LocalList l →
            with_ fails body s = (Raise AttributeError, s1)) as Hgen.
  { intros body rb s1 l Hbody Hl. unfold with_.
    assert (__enter__ s = (Return (), (__enter__ s).2)) as -> by done.
    rewrite Hbody. destruct rb as [[]|e]; by rewrite (exit_on_list fails _ l). }
  split_and!; [by eexists | | done].
  intros hs exc.
  pose proof (registers_on_list fails hs [] (__enter__ s).2 eq_refl) as Hreg.
  exists {| tx := {| files := LocalList hs; _intrans := true; worker := worker (tx s) |};
            _transaction := _transaction s |}.
  split; [|done].
  apply (Hgen _ (match exc with Some e => Raise e | None => Return () end) _ hs);
    [|reflexivity].
  unfold block, mbind, prog_mbind, prog_bind. rewrite Hreg.
  destruct exc; reflexivity.
Qed.

Lemma dask_block_never_reaches_collector_witness :
  let s := __init__ false (Some 0%nat) [] in
  let fails := TransactionFacts.never_fails in
  files (tx s) = Actor ∧
  ∃ s', with_ fails (block fails [7; 8]%nat None) s = (Raise AttributeError, s') ∧
        files (tx s') = LocalList [7; 8]%nat ∧ _intrans (tx s') = true ∧
        remote_calls (worker (tx s')) = [] ∧ _transaction s' = Some 0%nat.
Proof.
  intros s fails. split; [reflexivity|].
  destruct (proj1 (proj2 (dask_block_never_reaches_collector fails s))
              [7; 8]%nat None) as (s' & Hw & Hf & Hi & Hk & Ht).
  exists s'. split_and!; [done | done | done | by rewrite Hk | by rewrite Ht].
Defined.

End DaskScopedFacts.

(** ** dircache.py: the generator of [__iter__], test by test

    The clock moves while a generator is consumed. Here every membership
    test that the generator makes reads the clock on its own: test number
    [i] (counted from the call of [__iter__]) reads [clk i]. *)

Module DirCacheIter.
Import DirCache DirCacheFacts DirCacheMore.

(** Two writes under an expiry of 10 and a bound of 2, and a clock that
    reads 112 at the first test and 113 at the second. *)
Definition two_writes : list op :=
  [OSet 100 "a" (listing_of 1); OSet 108 "b" (listing_of 2)].

Definition ticking (i : nat) : Z := 112 + Z.of_nat i.

Section Generator.
Variable c : Config.
Variable clk : nat → Z.

(** One [next()] on [(k for k in entries if k in self)], starting with
    test number [i]: the keys are tested in turn, each at its own clock
    reading and on the state the tests before it left; the first that
    passes is handed out. The result also tells the number of the next
    test; [None] is [StopIteration]. *)
Fixpoint next_at (i : nat) (g : generator) : M (option string * generator * nat) :=
  match g with
  | [] => mret (None, [], i)
  | k :: g' =>
      b ← contains c (clk i) k;
      if (b : bool) then mret (Some k, g', S i) else next_at (S i) g'
  end.

(** [list(g)]: [next()] until [StopIteration]. [None] is for a loop that
    has not ended after [fuel] rounds. *)
Fixpoint collect (fuel : nat) (i : nat) (g : generator) : M (option (list string)) :=
  match fuel with
  | O => mret None
  | S fuel' =>
      r ← next_at i g;
      match r with
      | (Some k, g', j) =>
          ks ← collect fuel' j g';
          mret (cons k <$> (ks : option (list string)))
      | (None, _, _) => mret (Some [])
      end
  end.

(** [list(self)]: a generator over a copy of [n] keys ends within [n + 1]
    rounds. *)
Definition iterate_at : M (option (list string)) :=
  g ← iter; collect (S (length g)) 0 g.

(** A consumer that may run further operations on the cache before each
    [next()]; it stops at [StopIteration] or when its schedule ends. *)
Fixpoint consume_at (sched : list (list op)) (i : nat) (g : generator) (s : State)
  : list string * State :=
  match sched with
  | [] => ([], s)
  | os :: sched' =>
      match next_at i g (exec_all c os s) with
      | (Return (Some k, g', j), s') =>
          let (ks, s'') := consume_at sched' j g' s' in (k :: ks, s'')
      | (_, s') => ([], s')
      end
  end.

(** Following the spec's words, test by test: the keys of [g] that are
    visible in the state [s], the [n]-th of them judged at the clock
    reading of test [i + n]. *)
Fixpoint visible_at (i : nat) (s : State) (g : list string) : list string :=
  match g with
  | [] => []
  | k :: g' =>
      if is_visible c (clk i) s k then k :: visible_at (S i) s g'
      else visible_at (S i) s g'
  end.

(** No stored path is outside the recency window: there is no capacity
    bound, or the tracker holds every key of the store. *)
Definition all_tracked (s : State) : Prop :=
  truthy (max_paths c) = true → ∀ k, k ∈ PyDict.keys (_cache s) → k ∈ _q s.

(** What holds of the state [s'] reached while the keys [g] are still to
    be tested, against the state [s] of the call. *)
Definition untouched (s : State) (g : list string) (s' : State) : Prop :=
  _times s' = _times s ∧
  (∀ k, k ∈ g → PyDict.get k (_cache s') = PyDict.get k (_cache s)) ∧
  (truthy (max_paths c) = true → ∀ k, k ∈ g → k ∈ _q s' ∧ k ∈ _q s).

Lemma next_at_pass i k g s s' :
  contains c (clk i) k s = (Return true, s') →
  next_at i (k :: g) s = (Return (Some k, g, S i), s').
Proof. intros Hc. simpl. unfold mbind, prog_mbind, prog_bind. by rewrite Hc. Qed.

Lemma next_at_fail i k g s s' :
  contains c (clk i) k s = (Return false, s') →
  next_at i (k :: g) s = next_at (S i) g s'.
Proof. intros Hc. simpl. unfold mbind, prog_mbind, prog_bind. by rewrite Hc. Qed.

Lemma next_at_suffix i g s k g' j s' :
  next_at i g s = (Return (Some k, g', j), s') →
  ∃ pre, g = pre ++ k :: g' ∧ j = (i + S (length pre))%nat.
Proof.
  revert i s. induction g as [|k0 g IH]; intros i s; simpl.
  - unfold mret, prog_mret, prog_ret. congruence.
  - unfold mbind, prog_mbind, prog_bind.
    destruct (contains_total c (clk i) k0 s) as (b & s1 & ->). destruct b.
    + unfold mret, prog_mret, prog_ret. intros [= <- <- <- <-].
      exists []. split; [done | simpl; lia].
    + intros Hnext. destruct (IH _ _ Hnext) as (pre & -> & ->).
      exists (k0 :: pre). split; [done | simpl; lia].
Qed.

Lemma consume_at_sublist sched i g s : sublist (consume_at sched i g s).1 g.
Proof.
  revert i g s. induction sched as [|os sched IH]; intros i g s; simpl.
  - apply sublist_nil_l.
  - destruct (next_at i g (exec_all c os s)) as [[[[[k|] g'] j]|e] s'] eqn:Hnext;
      simpl; try apply sublist_nil_l.
    destruct (next_at_suffix _ _ _ _ _ _ _ Hnext) as (pre & -> & _).
    specialize (IH j g' s'). destruct (consume_at sched j g' s') as [ks s''].
    simpl in *. apply sublist_inserts_l. by apply sublist_skip.
Qed.

(** The membership test of a path that is in the tracker, or under no
    capacity bound: it is true of a stored path whose expiry test does
    not fire; it leaves the write times, the entries of the other paths
    and the membership of the tracker as they are. *)
Lemma contains_tracked now k s :
  (truthy (max_paths c) = true → k ∈ _q s) →
  ∃ s', contains c now k s =
          (Return (negb (expired c now k s) &&
                   bool_decide (is_Some (PyDict.get k (_cache s)))), s') ∧
        _times s' = _times s ∧
        (∀ k', k' ≠ k → PyDict.get k' (_cache s') = PyDict.get k' (_cache s)) ∧
        (truthy (max_paths c) = true → ∀ k', k' ∈ _q s → k' ∈ _q s').
Proof.
  intros Hq.
  assert (∃ b, contains c now k s = (Return b, (contains c now k s).2) ∧
               b = negb (expired c now k s) &&
                   bool_decide (is_Some (PyDict.get k (_cache s)))) as (b & Hb & ->).
  { unfold contains. destruct (expired c now k s) eqn:Hexp.
    - destruct (getitem_expired c now k s Hexp) as (s1 & -> & _). by eexists.
    - destruct (PyDict.get k (_cache s)) as [l|] eqn:Hget.
      + destruct (getitem_hit c now k l s Hget Hexp Hq) as (s1 & -> & _).
        by eexists.
      + destruct (getitem_absent c now k s Hget) as (s1 & -> & _). by eexists. }
  exists (contains c now k s).2. split_and!; [done | apply contains_times | |].
  - intros k' Hne. apply (exec_frame c (OContains now k) k k' s); [|done].
    simpl. by apply bool_decide_eq_true.
  - intros Htr k' Hk'. rewrite contains_state.
    assert (∀ x, _q x = _q s → k' ∈ _q (touched c k x)) as Htouch.
    { intros x Hx. rewrite touched_tracker, Htr, Hx. unfold q_track.
      rewrite decide_True by auto.
      destruct (decide (k' = k)) as [->|Hne]; [apply list_elem_of_here|].
      apply list_elem_of_further, list_elem_of_filter. by split. }
    destruct (getitem_state c now k s) as [-> |[-> | ->]]; [done | |];
      by apply Htouch.
Qed.

Lemma is_visible_tracked now k s :
  (truthy (max_paths c) = true → k ∈ _q s) →
  is_visible c now s k =
    negb (expired c now k s) && bool_decide (is_Some (PyDict.get k (_cache s))).
Proof.
  intros Hq. unfold is_visible.
  by destruct (contains_tracked now k s Hq) as (s' & -> & _).
Qed.

(** One test, in a state that the tests before have left [untouched]. *)
Lemma test_untouched i k g s s' :
  k ∉ g → untouched s (k :: g) s' →
  ∃ s'', contains c (clk i) k s' = (Return (is_visible c (clk i) s k), s'') ∧
         untouched s g s''.
Proof.
  intros Hk (Ht & Hget & Hq).
  assert (truthy (max_paths c) = true → k ∈ _q s') as Hq'
    by (intros Htr; by apply Hq, list_elem_of_here).
  assert (truthy (max_paths c) = true → k ∈ _q s) as Hq0
    by (intros Htr; by apply Hq, list_elem_of_here).
  destruct (contains_tracked (clk i) k s' Hq') as (s'' & Hc & Ht' & Hget' & Hq'').
  exists s''. split.
  - rewrite Hc, is_visible_tracked by done. unfold expired.
    by rewrite Ht, (Hget k) by apply list_elem_of_here.
  - split_and!.
    + by rewrite Ht'.
    + intros k' Hk'. rewrite Hget' by (intros ->; done).
      by apply Hget, list_elem_of_further.
    + intros Htr k' Hk'.
      destruct (Hq Htr k' (list_elem_of_further _ _ _ Hk')) as [H1 H2].
      split; [by apply Hq'' | done].
Qed.

(** [next()] under these conditions hands out the first remaining key
    that is visible in the state of the call at the reading of its test. *)
Lemma next_at_exact i g s s' :
  NoDup g → untouched s g s' →
  match next_at i g s' with
  | (Return (Some k, g', j), s'') =>
      visible_at i s g = k :: visible_at j s g' ∧
      NoDup g' ∧ untouched s g' s'' ∧ (length g' < length g)%nat
  | (Return (None, _, _), _) => visible_at i s g = []
  | (Raise _, _) => False
  end.
Proof.
  revert i s'. induction g as [|k g IH]; intros i s' Hnd Hun; [done|].
  apply NoDup_cons in Hnd as [Hk Hnd].
  destruct (test_untouched i k g s s' Hk Hun) as (s'' & Hc & Hun').
  destruct (is_visible c (clk i) s k) eqn:Hv.
  - rewrite (next_at_pass i k g s' s'') by done. simpl. rewrite Hv.
    split_and!; [done | done | done | lia].
  - rewrite (next_at_fail i k g s' s'') by done. simpl. rewrite Hv.
    specialize (IH (S i) s'' Hnd Hun').
    destruct (next_at (S i) g s'') as [[[[[k'|] g'] j]|e] s3]; [|done..].
    destruct IH as (? & ? & ? & ?). split_and!; [done | done | done | lia].
Qed.

Lemma collect_exact fuel i g s s' :
  (length g < fuel)%nat → NoDup g → untouched s g s' →
  (collect fuel i g s').1 = Return (Some (visible_at i s g)).
Proof.
  revert i g s'. induction fuel as [|fuel IH]; intros i g s' Hlen Hnd Hun; [lia|].
  simpl. unfold mbind, prog_mbind, prog_bind.
  pose proof (next_at_exact i g s s' Hnd Hun) as Hnext.
  destruct (next_at i g s') as [[[[[k|] g'] j]|e] s'']; [| |done].
  - destruct Hnext as (Hv & Hnd' & Hun' & Hlt).
    specialize (IH j g' s'' ltac:(lia) Hnd' Hun').
    destruct (collect fuel j g' s'') as [[ks|e] s3]; simpl in *; [|done].
    injection IH as ->. by rewrite Hv.
  - simpl. by rewrite Hnext.
Qed.

(** With a clock that stands still, the generator and the list made from
    it are those of [next] and [drain]. *)
Lemma next_at_const now i g s :
  (∀ n, clk n = now) →
  ∃ j, next_at i g s =
         match next c now g s with
         | (Return (r, g'), s') => (Return (r, g', j), s')
         | (Raise e, s') => (Raise e, s')
         end.
Proof.
  intros Hclk. revert i s. induction g as [|k g IH]; intros i s; simpl.
  - by exists i.
  - unfold mbind, prog_mbind, prog_bind. rewrite Hclk.
    destruct (contains_total c now k s) as (b & s1 & ->). destruct b.
    + by exists (S i).
    + apply IH.
Qed.

Lemma collect_const now fuel i g s :
  (∀ n, clk n = now) → (length g < fuel)%nat →
  collect fuel i g s =
    match drain c now g s with
    | (Return ks, s') => (Return (Some ks), s')
    | (Raise e, s') => (Raise e, s')
    end.
Proof.
  intros Hclk. revert i g s. induction fuel as [|fuel IH]; intros i g s Hlen; [lia|].
  simpl. unfold mbind, prog_mbind, prog_bind.
  destruct (next_at_const now i g s Hclk) as (j & ->).
  pose proof (drain_next c now g s) as Hd.
  destruct (next c now g s) as [[[[k|] g']|e] s'] eqn:Hnext; [| |done].
  - destruct Hd as (ks & s'' & Hd' & ->).
    destruct (next_suffix c now g s k g' s' Hnext) as (pre & ->).
    rewrite IH by (rewrite length_app in Hlen; simpl in Hlen; lia).
    by rewrite Hd'.
  - by rewrite Hd.
Qed.

Lemma visible_at_const now i s g :
  (∀ n, clk n = now) →
  visible_at i s g = filter (λ k, is_visible c now s k = true) g.
Proof.
  intros Hclk. revert i. induction g as [|k g IH]; intros i; [done|].
  simpl. rewrite Hclk, IH. destruct (is_visible c now s k) eqn:Hv; symmetry.
  - by apply filter_cons_True.
  - apply filter_cons_False. congruence.
Qed.

Lemma untouched_start s :
  all_tracked s → untouched s (PyDict.keys (_cache s)) s.
Proof.
  intros Hall. split_and!; [done | done |].
  intros Htr k Hk. split; by apply Hall.
Qed.

End Generator.

(** C5 (amended). [iterate] copies the keys of the store when it is
    called and returns a lazy generator over the copy. Each [next()]
    tests the copied keys in store order with the test of [contains], run
    when the key is reached (at the clock reading of that moment, on the
    state of that moment, with the side effects of the test): a key that
    fails is skipped, and so is every key whose expiry test fires by
    then; the first key that passes is handed out; when no key is left
    the generator stops. Whatever the caller does to the cache between two
    steps, the paths handed out form a sublist of the copy. If no stored
    path is outside the recency window (there is no capacity bound, or the
    tracker holds every stored key) and the cache is left alone while the
    generator is consumed, [list(d)] is exactly the copied keys that are
    visible in the state of the call, each judged at the reading of its
    own test; with a clock that stands still these are exactly the paths
    visible at the call. *)
Theorem iterate_lazy_snapshot (c : Config) (os : list op) (clk : nat → Z) :
  let s := exec_all c os init in
  let keys := PyDict.keys (_cache s) in
  iter s = (Return keys, s) ∧
  (∀ i k g s1 s2,
     contains c (clk i) k s1 = (Return true, s2) →
     next_at c clk i (k :: g) s1 = (Return (Some k, g, S i), s2) ∧
     next c (clk i) (k :: g) s1 = (Return (Some k, g), s2)) ∧
  (∀ i k g s1 s2,
     contains c (clk i) k s1 = (Return false, s2) →
     next_at c clk i (k :: g) s1 = next_at c clk (S i) g s2 ∧
     next c (clk i) (k :: g) s1 = next c (clk i) g s2) ∧
  (∀ i s1, next_at c clk i [] s1 = (Return (None, [], i), s1) ∧
           next c (clk i) [] s1 = (Return (None, []), s1)) ∧
  (∀ i k s1, expired c (clk i) k s1 = true →
             (contains c (clk i) k s1).1 = Return false) ∧
  (∀ sched, sublist (consume_at c clk sched 0 keys s).1 keys ∧
            sublist (consume c (map (λ os, (os, clk 0%nat)) sched) keys s).1 keys) ∧
  (all_tracked c s →
   (iterate_at c clk s).1 = Return (Some (visible_at c clk 0 s keys))) ∧
  (all_tracked c s →
   ∀ now, (iterate c now s).1 = Return (visible_paths c now s)).
Proof.
  intros s keys.
  assert (NoDup keys) as Hnd by apply reachable_keys_NoDup.
  split_and!.
  - done.
  - intros i k g s1 s2 Hc. split; [by apply next_at_pass|].
    simpl. unfold mbind, prog_mbind, prog_bind. by rewrite Hc.
  - intros i k g s1 s2 Hc. split; [by apply next_at_fail|].
    simpl. unfold mbind, prog_mbind, prog_bind. by rewrite Hc.
  - done.
  - intros i k s1 Hexp. unfold contains.
    by destruct (getitem_expired c (clk i) k s1 Hexp) as (s2 & -> & _).
  - intros sched. split; [apply consume_at_sublist | apply consume_sublist].
  - intros Hall. unfold iterate_at, iter, mbind, prog_mbind, prog_bind.
    apply collect_exact; [apply Nat.lt_succ_diag_r | done | by apply untouched_start].
  - intros Hall now.
    pose proof (collect_exact c (λ _, now) (S (length keys)) 0%nat keys s s
                  (Nat.lt_succ_diag_r _) Hnd (untouched_start c s Hall)) as Hcol.
    rewrite (collect_const c (λ _, now) now) in Hcol
      by (done || apply Nat.lt_succ_diag_r).
    rewrite (visible_at_const c (λ _, now) now) in Hcol by done.
    unfold iterate, iter, mbind, prog_mbind, prog_bind.
    fold keys. destruct (drain c now keys s) as [[ks|e] s']; simpl in *;
      [by injection Hcol as -> | done].
Qed.

Lemma iterate_lazy_snapshot_witness :
  let c := expiring_bounded 10 2 in
  let s := exec_all c two_writes init in
  all_tracked c s ∧
  (iterate_at c ticking s).1 = Return (Some ["b"]) ∧
  visible_at c ticking 0 s (PyDict.keys (_cache s)) = ["b"] ∧
  (iterate c 105 s).1 = Return ["a"; "b"] ∧
  visible_paths c 105 s = ["a"; "b"].
Proof.
  intros c s.
  assert (all_tracked c s) as Hall.
  { intros _ k Hk. vm_compute in Hk. vm_compute.
    apply elem_of_cons in Hk as [->|Hk];
      [apply list_elem_of_further, list_elem_of_here|].
    apply list_elem_of_singleton in Hk as ->. apply list_elem_of_here. }
  assert (visible_at c ticking 0 s (PyDict.keys (_cache s)) = ["b"]) as Hv
    by reflexivity.
  assert (visible_paths c 105 s = ["a"; "b"]) as Hp by reflexivity.
  destruct (iterate_lazy_snapshot c two_writes ticking)
    as (_ & _ & _ & _ & _ & _ & Hexact & Hstill).
  split_and!; [exact Hall | | exact Hv | | exact Hp].
  - rewrite <- Hv. exact (Hexact Hall).
  - rewrite <- Hp. exact (Hstill Hall 105).
Defined.

End DirCacheIter.
